(** * Modeltime: the year/period discretisation of the model

    A shallow embedding of [Modeltime::set] and [Modeltime::getyr_to_per]
    (objects/util/base/source/model_time.cpp) together with the properties
    of the period grid, the year map and the data-grid alignment.

    Conventions of the embedding.
    - A C++ [int] is a [Z].  Signed overflow is undefined in C++, so the
      model describes the runs in which every intermediate value fits an
      [int]; [/] and [%] truncate towards zero ([Z.quot], [Z.rem]) and are
      undefined for a zero divisor.
    - A [std::vector<int>] is a [list Z]; [operator[]] outside the vector is
      undefined, [resize] with a negative [int] converts to an enormous
      [size_type] and throws.  Undefined behaviour and exceptions are the
      [None] of the option monad.
    - The [std::map<int,int>] is a [gmap Z Z]; reading it with [operator[]]
      inserts a zero under an absent key, [find] does not.
    - The logger named "main_log" is one shared list of entries. *)

From stdpp Require Import gmap strings list pretty.
From Stdlib Require Import ZArith Lia.

Local Open Scope Z_scope.

(** ** The logging collaborator *)

Inductive WarningLevel := WARNING | ERROR.

Record LogEntry := { entry_level : WarningLevel; entry_text : string }.

(** [mainLog.setLevel( lvl ); mainLog << text << endl;] *)
Definition log_line (lvl : WarningLevel) (text : string)
    (log : list LogEntry) : list LogEntry :=
  log ++ [ {| entry_level := lvl; entry_text := text |} ].

(** ** Integers, vectors and the map, as the C++ operations behave *)

Definition int_div (a b : Z) : option Z :=
  if decide (b = 0) then None else Some (a ÷ b).

Definition int_mod (a b : Z) : option Z :=
  if decide (b = 0) then None else Some (Z.rem a b).

(** [v.resize( n )]: keeps the leading elements, pads with zeros. *)
Definition vec_resize (n : Z) (v : list Z) : option (list Z) :=
  if decide (0 ≤ n) then Some (resize (Z.to_nat n) 0 v) else None.

(** [v[ i ] = x] *)
Definition vec_store (i x : Z) (v : list Z) : option (list Z) :=
  if decide (0 ≤ i < Z.of_nat (length v))
  then Some (<[Z.to_nat i := x]> v) else None.

(** [v[ i ]] as a value *)
Definition vec_load (i : Z) (v : list Z) : option Z :=
  if decide (0 ≤ i) then v !! Z.to_nat i else None.

(** [m[ k ]] as a value: an absent key is first inserted with a zero. *)
Definition map_index (k : Z) (m : gmap Z Z) : Z * gmap Z Z :=
  match m !! k with
  | Some v => (v, m)
  | None => (0, <[k := 0]> m)
  end.

(** [for( int i = a; i < b; i++ ) body], for a body that leaves [i] and the
    bound alone. *)
Fixpoint for_loop_from {S : Type} (n : nat) (i : Z)
    (body : Z → S → option S) (s : S) : option S :=
  match n with
  | O => Some s
  | Datatypes.S n' => s' ← body i s; for_loop_from n' (i + 1) body s'
  end.

Definition for_loop {S : Type} (a b : Z)
    (body : Z → S → option S) (s : S) : option S :=
  for_loop_from (Z.to_nat (b - a)) a body s.

(** ** The class *)

Record Modeltime := mkModeltime {
  startYear : Z;
  interYear1 : Z;
  interYear2 : Z;
  endYear : Z;
  dataEndYear : Z;
  maxPeriod : Z;
  maxDataPeriod : Z;
  dataTimeStep : Z;
  timeStep1 : Z;
  timeStep2 : Z;
  timeStep3 : Z;
  numberOfPeriods1 : Z;
  numberOfPeriods1a : Z;
  numberOfPeriods2 : Z;
  numberOfPeriods2a : Z;
  numberOfPeriods3 : Z;
  numberOfPeriods3a : Z;
  periodToTimeStep : list Z;
  dataOffset : list Z;
  modelPeriodToYear : list Z;
  dataPeriodToModelPeriod : list Z;
  yearToModelPeriod : gmap Z Z
}.

(** [Modeltime::Modeltime()]: [initElementalMembers] zeroes the scalars, the
    containers start empty. *)
Definition Modeltime_ctor : Modeltime :=
  mkModeltime 0 0 0 0 0 0 0 0 0 0 0 0 0 0 0 0 0 [] [] [] [] ∅.

(** The object [XMLParse] leaves behind when the document carries the nine
    elements startyear, interyear1, interyear2, endyear, timestep1,
    timestep2, timestep3, dataend and datatimestep. *)
Definition parsed (sy iy1 iy2 ey ts1 ts2 ts3 dey dts : Z) : Modeltime :=
  mkModeltime sy iy1 iy2 ey dey 0 0 dts ts1 ts2 ts3 0 0 0 0 0 0 [] [] [] [] ∅.

(** A method run: the object and the log go in, a result with the updated
    object and log comes out, or nothing when the run is undefined. *)
Definition Run (A : Type) : Type :=
  Modeltime → list LogEntry → option (A * Modeltime * list LogEntry).

(** ** [Modeltime::set] *)

(** The six loops that write one era segment of [periodToTimeStep]. *)
Definition fill (a b x : Z) (v : list Z) : option (list Z) :=
  for_loop a b (λ i v, vec_store i x v) v.

(** The body of the walk over the periods [1 .. maxPeriod-1]; the loop
    carries [baseyr], [yearToModelPeriod] and [modelPeriodToYear]. *)
Definition walk_body (pts : list Z) (i : Z)
    (st : Z * gmap Z Z * list Z) : option (Z * gmap Z Z * list Z) :=
  let '(baseyr, y2p, p2y) := st in
  step ← vec_load i pts;
  let y2p := <[baseyr + step := i]> y2p in
  p2y ← vec_store i (baseyr + step) p2y;
  y2p ← (if decide (1 < step)
         then for_loop 1 step (λ y m, Some (<[baseyr + y := i]> m)) y2p
         else Some y2p);
  Some (baseyr + step, y2p, p2y).

(** The body of the loop over the data periods; it carries
    [yearToModelPeriod], [dataOffset] and [dataPeriodToModelPeriod]. *)
Definition align_body (sy dts maxData maxPer : Z) (pts : list Z) (i : Z)
    (st : gmap Z Z * list Z * list Z) : option (gmap Z Z * list Z * list Z) :=
  let '(y2p, doff, d2m) := st in
  let '(m, y2p) := map_index (sy + i * dts) y2p in
  doff ← (if decide (maxData = maxPer)
          then vec_store i 0 doff
          else s ← vec_load m pts;
               q ← int_div dts s;
               vec_store i q doff);
  d2m ← vec_store i m d2m;
  Some (y2p, doff, d2m).

Definition warn1 : string := "first time interval not divisible timeStep1".
Definition warn2 : string := "Second time interval not divisible timeStep2".
Definition warn3 : string := "Third time interval not divisible timeStep3".

Definition set : Run unit := λ mt log,
  q1 ← int_div (interYear1 mt - startYear mt) (timeStep1 mt);
  let numberOfPeriods1 := q1 + 1 in
  numberOfPeriods2 ← int_div (interYear2 mt - interYear1 mt) (timeStep2 mt);
  numberOfPeriods3 ← int_div (endYear mt - interYear2 mt) (timeStep3 mt);
  rem1 ← int_mod (interYear1 mt - startYear mt) (timeStep1 mt);
  rem2 ← int_mod (interYear2 mt - interYear1 mt) (timeStep2 mt);
  rem3 ← int_mod (endYear mt - interYear2 mt) (timeStep3 mt);
  let '(numberOfPeriods1a, log) :=
    if decide (rem1 ≠ 0)
    then (numberOfPeriods1 + 1, log_line WARNING warn1 log)
    else (numberOfPeriods1, log) in
  let '(numberOfPeriods2a, log) :=
    if decide (rem2 ≠ 0)
    then (numberOfPeriods2 + 1, log_line WARNING warn2 log)
    else (numberOfPeriods2, log) in
  let '(numberOfPeriods3a, log) :=
    if decide (rem3 ≠ 0)
    then (numberOfPeriods3 + 1, log_line WARNING warn3 log)
    else (numberOfPeriods3, log) in
  let maxPeriod := numberOfPeriods1a + numberOfPeriods2a + numberOfPeriods3a in
  dq ← int_div (dataEndYear mt - startYear mt) (dataTimeStep mt);
  let maxDataPeriod := dq + 1 in
  pts ← vec_resize maxPeriod (periodToTimeStep mt);
  pts ← fill 0 numberOfPeriods1 (timeStep1 mt) pts;
  pts ← fill numberOfPeriods1 numberOfPeriods1a rem1 pts;
  pts ← fill numberOfPeriods1a (numberOfPeriods1a + numberOfPeriods2)
         (timeStep2 mt) pts;
  pts ← fill (numberOfPeriods1a + numberOfPeriods2)
         (numberOfPeriods1a + numberOfPeriods2a) rem2 pts;
  pts ← fill (numberOfPeriods1a + numberOfPeriods2a)
         (numberOfPeriods1a + numberOfPeriods2a + numberOfPeriods3)
         (timeStep3 mt) pts;
  pts ← fill (numberOfPeriods1a + numberOfPeriods2a + numberOfPeriods3)
         (numberOfPeriods1a + numberOfPeriods2a + numberOfPeriods3a) rem3 pts;
  let baseyr := startYear mt in
  let y2p := <[baseyr := 0]> (yearToModelPeriod mt) in
  p2y ← vec_resize maxPeriod (modelPeriodToYear mt);
  p2y ← vec_store 0 baseyr p2y;
  '(_, y2p, p2y) ← for_loop 1 maxPeriod (walk_body pts) (baseyr, y2p, p2y);
  doff ← vec_resize maxDataPeriod (dataOffset mt);
  d2m ← vec_resize maxDataPeriod (dataPeriodToModelPeriod mt);
  '(y2p, doff, d2m) ←
     for_loop 0 maxDataPeriod
       (align_body (startYear mt) (dataTimeStep mt) maxDataPeriod maxPeriod pts)
       (y2p, doff, d2m);
  Some (tt,
        {| startYear := startYear mt;
           interYear1 := interYear1 mt;
           interYear2 := interYear2 mt;
           endYear := endYear mt;
           dataEndYear := dataEndYear mt;
           maxPeriod := maxPeriod;
           maxDataPeriod := maxDataPeriod;
           dataTimeStep := dataTimeStep mt;
           timeStep1 := timeStep1 mt;
           timeStep2 := timeStep2 mt;
           timeStep3 := timeStep3 mt;
           numberOfPeriods1 := numberOfPeriods1;
           numberOfPeriods1a := numberOfPeriods1a;
           numberOfPeriods2 := numberOfPeriods2;
           numberOfPeriods2a := numberOfPeriods2a;
           numberOfPeriods3 := numberOfPeriods3;
           numberOfPeriods3a := numberOfPeriods3a;
           periodToTimeStep := pts;
           dataOffset := doff;
           modelPeriodToYear := p2y;
           dataPeriodToModelPeriod := d2m;
           yearToModelPeriod := y2p |},
        log).

(** ** [Modeltime::getyr_to_per], the spec's [yearToPeriod] *)

Definition invalid_year (year : Z) : string :=
  "Invalid year: " +:+ pretty year +:+ " passed to Modeltime::getyr_to_per. ".

Definition getyr_to_per (year : Z) : Run Z := λ mt log,
  match yearToModelPeriod mt !! year with
  | None => Some (0, mt, log_line ERROR (invalid_year year) log)
  | Some period => Some (period, mt, log)
  end.

(** [Modeltime::getBasePeriod] *)
Definition getBasePeriod : Run Z := λ mt log, getyr_to_per (startYear mt) mt log.

(** ** Closed forms, computed from the configuration alone *)

Definition sum_Z (l : list Z) : Z := foldr Z.add 0 l.

Definition whole1 (mt : Modeltime) : Z :=
  (interYear1 mt - startYear mt) ÷ timeStep1 mt.
Definition whole2 (mt : Modeltime) : Z :=
  (interYear2 mt - interYear1 mt) ÷ timeStep2 mt.
Definition whole3 (mt : Modeltime) : Z :=
  (endYear mt - interYear2 mt) ÷ timeStep3 mt.
Definition left1 (mt : Modeltime) : Z :=
  Z.rem (interYear1 mt - startYear mt) (timeStep1 mt).
Definition left2 (mt : Modeltime) : Z :=
  Z.rem (interYear2 mt - interYear1 mt) (timeStep2 mt).
Definition left3 (mt : Modeltime) : Z :=
  Z.rem (endYear mt - interYear2 mt) (timeStep3 mt).

(** One more period for an era with a leftover. *)
Definition extra (rest : Z) : Z := if decide (rest = 0) then 0 else 1.

(** The steps of one era: [n] nominal steps, then the leftover if any. *)
Definition era (n step rest : Z) : list Z :=
  replicate (Z.to_nat n) step ++ (if decide (rest = 0) then [] else [rest]).

Definition steps (mt : Modeltime) : list Z :=
  era (whole1 mt + 1) (timeStep1 mt) (left1 mt)
  ++ era (whole2 mt) (timeStep2 mt) (left2 mt)
  ++ era (whole3 mt) (timeStep3 mt) (left3 mt).

Definition periods (mt : Modeltime) : Z :=
  (whole1 mt + 1 + extra (left1 mt))
  + (whole2 mt + extra (left2 mt))
  + (whole3 mt + extra (left3 mt)).

Definition data_periods (mt : Modeltime) : Z :=
  (dataEndYear mt - startYear mt) ÷ dataTimeStep mt + 1.

(** The year of period [j]: the start year plus the steps of the periods
    [1 .. j]. *)
Definition year_at (mt : Modeltime) (j : nat) : Z :=
  startYear mt + sum_Z (take j (tail (steps mt))).

(** The warnings [set] emits, in order. *)
Definition warning (rest : Z) (text : string) : list LogEntry :=
  if decide (rest = 0) then []
  else [ {| entry_level := WARNING; entry_text := text |} ].

Definition warnings (mt : Modeltime) : list LogEntry :=
  warning (left1 mt) warn1 ++ warning (left2 mt) warn2
  ++ warning (left3 mt) warn3.

(** ** Valid configurations *)

(** The three eras: increasing boundaries, positive steps. *)
Definition valid_eras (mt : Modeltime) : Prop :=
  startYear mt < interYear1 mt ∧ interYear1 mt < interYear2 mt
  ∧ interYear2 mt < endYear mt
  ∧ 0 < timeStep1 mt ∧ 0 < timeStep2 mt ∧ 0 < timeStep3 mt.

(** The data grid: [set] divides by [dataTimeStep] and sizes two vectors with
    the number of data periods, so the step is not zero and the number is
    not negative. *)
Definition valid_data (mt : Modeltime) : Prop :=
  dataTimeStep mt ≠ 0 ∧ 0 ≤ data_periods mt.

Definition valid (mt : Modeltime) : Prop := valid_eras mt ∧ valid_data mt.

(** The year map holds nothing but zeros outside the modelled span; so it is
    on a new object and, as shown below, after every [set]. *)
Definition clean_outside (mt : Modeltime) : Prop :=
  ∀ y v, yearToModelPeriod mt !! y = Some v →
         y < startYear mt ∨ endYear mt < y → v = 0.

(** Two objects with the same nine configuration scalars. *)
Definition same_config (a b : Modeltime) : Prop :=
  startYear a = startYear b ∧ interYear1 a = interYear1 b
  ∧ interYear2 a = interYear2 b ∧ endYear a = endYear b
  ∧ timeStep1 a = timeStep1 b ∧ timeStep2 a = timeStep2 b
  ∧ timeStep3 a = timeStep3 b
  ∧ dataEndYear a = dataEndYear b ∧ dataTimeStep a = dataTimeStep b.

(** ** Loop invariants and the state after [set] *)

(** What the walk has established when it reaches period [i]; [m0] is the
    year map it started from. *)
Definition walk_inv (mt : Modeltime) (m0 : gmap Z Z) (i : Z)
    (st : Z * gmap Z Z * list Z) : Prop :=
  let '(b, m, p) := st in
  Z.of_nat (length p) = periods mt
  ∧ b = year_at mt (Z.to_nat (i - 1))
  ∧ (∀ j : nat, Z.of_nat j < i → p !! j = Some (year_at mt j))
  ∧ m !! startYear mt = Some 0
  ∧ (∀ (j : nat) y, (1 ≤ j)%nat → Z.of_nat j < i →
       year_at mt (j - 1) < y ≤ year_at mt j → m !! y = Some (Z.of_nat j))
  ∧ (∀ y, y < startYear mt ∨ b < y → m !! y = m0 !! y).

(** [y] is one of the first [k] years of the data grid. *)
Definition grid_upto (mt : Modeltime) (k y : Z) : Prop :=
  ∃ i, 0 ≤ i < k ∧ y = startYear mt + i * dataTimeStep mt.

Definition data_year (mt : Modeltime) (y : Z) : Prop :=
  grid_upto mt (data_periods mt) y.

(** What the loop has established of the data periods below [k]; [w] is
    the year map the loop started from. *)
Definition align_inv (mt : Modeltime) (w : gmap Z Z) (k : Z)
    (st : gmap Z Z * list Z * list Z) : Prop :=
  let '(m, doff, d2m) := st in
  Z.of_nat (length doff) = data_periods mt
  ∧ Z.of_nat (length d2m) = data_periods mt
  ∧ (∀ y v, w !! y = Some v → m !! y = Some v)
  ∧ (∀ y, w !! y = None →
       (m !! y = None ∧ ¬ grid_upto mt k y)
       ∨ (m !! y = Some 0 ∧ grid_upto mt k y))
  ∧ (∀ i : nat, Z.of_nat i < k →
       ∃ p s, m !! (startYear mt + Z.of_nat i * dataTimeStep mt) = Some p
              ∧ d2m !! i = Some p
              ∧ 0 ≤ p
              ∧ steps mt !! Z.to_nat p = Some s
              ∧ doff !! i = Some (if decide (data_periods mt = periods mt)
                                  then 0 else dataTimeStep mt ÷ s)).

(** What [set] leaves behind in [mt'] when it ran on [mt]. *)
Record set_post (mt mt' : Modeltime) : Prop := {
  post_config : same_config mt mt';
  post_n1 : numberOfPeriods1 mt' = whole1 mt + 1;
  post_n2 : numberOfPeriods2 mt' = whole2 mt;
  post_n3 : numberOfPeriods3 mt' = whole3 mt;
  post_n1a : numberOfPeriods1a mt' = whole1 mt + 1 + extra (left1 mt);
  post_n2a : numberOfPeriods2a mt' = whole2 mt + extra (left2 mt);
  post_n3a : numberOfPeriods3a mt' = whole3 mt + extra (left3 mt);
  post_max : maxPeriod mt' = periods mt;
  post_max_data : maxDataPeriod mt' = data_periods mt;
  post_steps : periodToTimeStep mt' = steps mt;
  post_years_length : Z.of_nat (length (modelPeriodToYear mt')) = periods mt;
  post_years : ∀ j : nat, Z.of_nat j < periods mt →
    modelPeriodToYear mt' !! j = Some (year_at mt j);
  post_map_start : yearToModelPeriod mt' !! startYear mt = Some 0;
  post_map_block : ∀ (j : nat) y,
    (1 ≤ j)%nat → Z.of_nat j < periods mt →
    year_at mt (j - 1) < y ≤ year_at mt j →
    yearToModelPeriod mt' !! y = Some (Z.of_nat j);
  post_map_outside : ∀ y, y < startYear mt ∨ endYear mt < y →
    (yearToModelPeriod mt' !! y = Some 0
     ∧ (yearToModelPeriod mt !! y = Some 0
        ∨ yearToModelPeriod mt !! y = None ∧ data_year mt y))
    ∨ (yearToModelPeriod mt' !! y = None
       ∧ yearToModelPeriod mt !! y = None ∧ ¬ data_year mt y);
  post_offset_length : Z.of_nat (length (dataOffset mt')) = data_periods mt;
  post_data_length :
    Z.of_nat (length (dataPeriodToModelPeriod mt')) = data_periods mt;
  post_data : ∀ i : nat, Z.of_nat i < data_periods mt →
    ∃ p s,
      yearToModelPeriod mt' !! (startYear mt + Z.of_nat i * dataTimeStep mt)
        = Some p
      ∧ dataPeriodToModelPeriod mt' !! i = Some p
      ∧ 0 ≤ p
      ∧ steps mt !! Z.to_nat p = Some s
      ∧ dataOffset mt' !! i
        = Some (if decide (data_periods mt = periods mt)
                then 0 else dataTimeStep mt ÷ s)
}.

(** ** Scenarios *)

(** Scenario A. *)
Definition scenarioA : Modeltime := parsed 1990 2005 2035 2095 5 5 10 2005 5.

(** Scenario A with yearly data up to 1992. *)
Definition scenarioYearly : Modeltime :=
  parsed 1990 2005 2035 2095 5 5 10 1992 1.

(** Scenario A with a data grid that runs past the end year. *)
Definition scenarioOver : Modeltime :=
  parsed 1990 2005 2035 2095 5 5 10 2100 5.

(** Scenario B, completed with two even later eras. *)
Definition scenarioB : Modeltime :=
  parsed 2000 2007 2037 2097 5 5 10 2005 5.

(** A uniform five-year grid whose data grid is the model grid. *)
Definition scenarioUniform : Modeltime :=
  parsed 1990 2005 2035 2095 5 5 5 2095 5.

(** The order the spec expects of [dataPeriodToModelPeriod]. *)
Definition nondecreasing (l : list Z) : Prop :=
  ∀ (a b : nat) x y, (a ≤ b)%nat → l !! a = Some x → l !! b = Some y → x ≤ y.

Ltac decide_valid :=
  unfold valid, valid_eras, valid_data; repeat split; by vm_compute.

(** Inversion of one bind of a run that returned. *)
Ltac bind_inv H v E :=
  match type of H with
  | (?x ≫= _) = Some _ =>
      destruct x as [v|] eqn:E; [cbn [mbind option_bind] in H | discriminate H]
  end.

(** ** The rest of the class: parsing, writing, accessors *)

(** A child of the node handed to [XMLParse]: the transcoded node name and
    the [int] that [XMLHelper<int>::getValue] reads from the node.  The DOM
    and the helper are not part of the class. *)
Record XMLChild := { nodeName : string; nodeValue : Z }.

(** The object with the nine configuration members replaced and the derived
    members kept. *)
Definition reconfigure (mt : Modeltime)
    (sy iy1 iy2 ey ts1 ts2 ts3 dey dts : Z) : Modeltime :=
  {| startYear := sy; interYear1 := iy1; interYear2 := iy2; endYear := ey;
     dataEndYear := dey;
     maxPeriod := maxPeriod mt; maxDataPeriod := maxDataPeriod mt;
     dataTimeStep := dts;
     timeStep1 := ts1; timeStep2 := ts2; timeStep3 := ts3;
     numberOfPeriods1 := numberOfPeriods1 mt;
     numberOfPeriods1a := numberOfPeriods1a mt;
     numberOfPeriods2 := numberOfPeriods2 mt;
     numberOfPeriods2a := numberOfPeriods2a mt;
     numberOfPeriods3 := numberOfPeriods3 mt;
     numberOfPeriods3a := numberOfPeriods3a mt;
     periodToTimeStep := periodToTimeStep mt;
     dataOffset := dataOffset mt;
     modelPeriodToYear := modelPeriodToYear mt;
     dataPeriodToModelPeriod := dataPeriodToModelPeriod mt;
     yearToModelPeriod := yearToModelPeriod mt |}.

Definition unrecognized (name : string) : string :=
  "Unrecognized text string: " +:+ name
  +:+ " found while parsing modeltime.".

(** One turn of the loop of [Modeltime::XMLParse] over the children. *)
Definition XMLParse_child (curr : XMLChild)
    (st : Modeltime * list LogEntry) : Modeltime * list LogEntry :=
  let '(mt, log) := st in
  let name := nodeName curr in
  let v := nodeValue curr in
  if decide (name = "#text") then (mt, log)
  else if decide (name = "startyear") then
    (reconfigure mt v (interYear1 mt) (interYear2 mt) (endYear mt)
       (timeStep1 mt) (timeStep2 mt) (timeStep3 mt)
       (dataEndYear mt) (dataTimeStep mt), log)
  else if decide (name = "interyear1") then
    (reconfigure mt (startYear mt) v (interYear2 mt) (endYear mt)
       (timeStep1 mt) (timeStep2 mt) (timeStep3 mt)
       (dataEndYear mt) (dataTimeStep mt), log)
  else if decide (name = "interyear2") then
    (reconfigure mt (startYear mt) (interYear1 mt) v (endYear mt)
       (timeStep1 mt) (timeStep2 mt) (timeStep3 mt)
       (dataEndYear mt) (dataTimeStep mt), log)
  else if decide (name = "endyear") then
    (reconfigure mt (startYear mt) (interYear1 mt) (interYear2 mt) v
       (timeStep1 mt) (timeStep2 mt) (timeStep3 mt)
       (dataEndYear mt) (dataTimeStep mt), log)
  else if decide (name = "timestep1") then
    (reconfigure mt (startYear mt) (interYear1 mt) (interYear2 mt) (endYear mt)
       v (timeStep2 mt) (timeStep3 mt)
       (dataEndYear mt) (dataTimeStep mt), log)
  else if decide (name = "timestep2") then
    (reconfigure mt (startYear mt) (interYear1 mt) (interYear2 mt) (endYear mt)
       (timeStep1 mt) v (timeStep3 mt)
       (dataEndYear mt) (dataTimeStep mt), log)
  else if decide (name = "timestep3") then
    (reconfigure mt (startYear mt) (interYear1 mt) (interYear2 mt) (endYear mt)
       (timeStep1 mt) (timeStep2 mt) v
       (dataEndYear mt) (dataTimeStep mt), log)
  else if decide (name = "dataend") then
    (reconfigure mt (startYear mt) (interYear1 mt) (interYear2 mt) (endYear mt)
       (timeStep1 mt) (timeStep2 mt) (timeStep3 mt)
       v (dataTimeStep mt), log)
  else if decide (name = "datatimestep") then
    (reconfigure mt (startYear mt) (interYear1 mt) (interYear2 mt) (endYear mt)
       (timeStep1 mt) (timeStep2 mt) (timeStep3 mt)
       (dataEndYear mt) v, log)
  else (mt, log_line WARNING (unrecognized name) log).

(** [Modeltime::XMLParse] on a node with the given children, in document
    order. *)
Definition XMLParse (children : list XMLChild) : Run unit := λ mt log,
  let '(mt', log') :=
    foldl (λ st curr, XMLParse_child curr st) (mt, log) children in
  Some (tt, mt', log').

(** The output stream, as the calls made on it: what the three writers
    of xml_helper.h put on the stream for a call is theirs to decide. *)
Inductive XMLCall :=
  | XMLWriteOpeningTag (name : string)
  | XMLWriteElement (value : Z) (name : string)
  | XMLWriteClosingTag (name : string).

Definition XML_NAME : string := "modeltime".

(** [Modeltime::getXMLName], [Modeltime::getXMLNameStatic] *)
Definition getXMLName : string := XML_NAME.
Definition getXMLNameStatic : string := XML_NAME.

(** The nine elements both writers start with. *)
Definition write_config (mt : Modeltime) : list XMLCall :=
  [ XMLWriteElement (startYear mt) "startyear";
    XMLWriteElement (interYear1 mt) "interyear1";
    XMLWriteElement (interYear2 mt) "interyear2";
    XMLWriteElement (endYear mt) "endyear";
    XMLWriteElement (timeStep1 mt) "timestep1";
    XMLWriteElement (timeStep2 mt) "timestep2";
    XMLWriteElement (timeStep3 mt) "timestep3";
    XMLWriteElement (dataEndYear mt) "dataend";
    XMLWriteElement (dataTimeStep mt) "datatimestep" ].

(** [Modeltime::toInputXML] *)
Definition toInputXML (mt : Modeltime) (out : list XMLCall) : list XMLCall :=
  out ++ [ XMLWriteOpeningTag getXMLName ] ++ write_config mt
      ++ [ XMLWriteClosingTag getXMLName ].

(** [Modeltime::toDebugXML]: the three vectors are read at [period] with
    [operator[]]. *)
Definition toDebugXML (period : Z) (mt : Modeltime)
    (out : list XMLCall) : option (list XMLCall) :=
  let out := out ++ [ XMLWriteOpeningTag getXMLName ] ++ write_config mt in
  s ← vec_load period (periodToTimeStep mt);
  let out := out ++ [ XMLWriteElement s "periodToTimeStep" ] in
  o ← vec_load period (dataOffset mt);
  let out := out ++ [ XMLWriteElement o "dataOffset" ] in
  y ← vec_load period (modelPeriodToYear mt);
  let out := out ++ [ XMLWriteElement y "modelPeriodToYear" ] in
  Some (out ++ [ XMLWriteClosingTag getXMLName ]).

(** [Modeltime::getStartYear], [Modeltime::getEndYear] *)
Definition getStartYear (mt : Modeltime) : Z := startYear mt.
Definition getEndYear (mt : Modeltime) : Z := endYear mt.

(** The elements among the writer calls, as the children a parser hands
    back for them. *)
Definition written_children (calls : list XMLCall) : list XMLChild :=
  omap (λ c, match c with
             | XMLWriteElement v n => Some {| nodeName := n; nodeValue := v |}
             | _ => None
             end) calls.

(** The configuration member that [XMLParse] assigns for a node name. *)
Definition config_member (name : string) : option (Modeltime → Z) :=
  if decide (name = "startyear") then Some startYear
  else if decide (name = "interyear1") then Some interYear1
  else if decide (name = "interyear2") then Some interYear2
  else if decide (name = "endyear") then Some endYear
  else if decide (name = "timestep1") then Some timeStep1
  else if decide (name = "timestep2") then Some timeStep2
  else if decide (name = "timestep3") then Some timeStep3
  else if decide (name = "dataend") then Some dataEndYear
  else if decide (name = "datatimestep") then Some dataTimeStep
  else None.

(** The node names [XMLParse] passes over without a warning. *)
Definition recognized (name : string) : Prop :=
  name = "#text" ∨ is_Some (config_member name).

Global Instance recognized_dec name : Decision (recognized name).
Proof. unfold recognized. apply _. Defined.

(** Two objects with the same derived members. *)
Definition same_derived (a b : Modeltime) : Prop :=
  maxPeriod a = maxPeriod b ∧ maxDataPeriod a = maxDataPeriod b
  ∧ numberOfPeriods1 a = numberOfPeriods1 b
  ∧ numberOfPeriods1a a = numberOfPeriods1a b
  ∧ numberOfPeriods2 a = numberOfPeriods2 b
  ∧ numberOfPeriods2a a = numberOfPeriods2a b
  ∧ numberOfPeriods3 a = numberOfPeriods3 b
  ∧ numberOfPeriods3a a = numberOfPeriods3a b
  ∧ periodToTimeStep a = periodToTimeStep b
  ∧ dataOffset a = dataOffset b
  ∧ modelPeriodToYear a = modelPeriodToYear b
  ∧ dataPeriodToModelPeriod a = dataPeriodToModelPeriod b
  ∧ yearToModelPeriod a = yearToModelPeriod b.

(** The warnings [XMLParse] logs for a list of children. *)
Definition parse_warnings (children : list XMLChild) : list LogEntry :=
  (λ c, {| entry_level := WARNING; entry_text := unrecognized (nodeName c) |})
  <$> filter (λ c, ¬ recognized (nodeName c)) children.

(** ** [EnergyInput::hasTypeFlag] (functions/source/energy_input.cpp) *)

(** [( aTypeFlag & ~IInput::ENERGY ) == 0].  The flag constant
    [IInput::ENERGY] is declared outside the file and is a parameter; on
    [int]s in two's complement [&] and [~] are [Z.land] and [Z.lnot]. *)
Definition hasTypeFlag (ENERGY aTypeFlag : Z) : bool :=
  Z.land aTypeFlag (Z.lnot ENERGY) =? 0.

(** * Loops *)

Section loops.
Context {S : Type}.
Implicit Types (body : Z → S → option S) (I : Z → S → Prop).

Lemma for_loop_from_inv I body n : ∀ a s,
  I a s →
  (∀ i s, a ≤ i < a + Z.of_nat n → I i s →
          ∃ s', body i s = Some s' ∧ I (i + 1) s') →
  ∃ s', for_loop_from n a body s = Some s' ∧ I (a + Z.of_nat n) s'.
Proof.
  induction n as [|n IH]; intros a s Ha Hstep; simpl.
  - exists s. by rewrite Z.add_0_r.
  - destruct (Hstep a s) as (s1 & -> & H1); [lia | done |]. simpl.
    destruct (IH (a + 1) s1) as (s2 & -> & H2); [done | |].
    + intros i s' Hi. apply Hstep. lia.
    + exists s2. split; [done |].
      by replace (a + Z.of_nat (Datatypes.S n)) with (a + 1 + Z.of_nat n) by lia.
Qed.

(** The invariant rule for a counting loop. *)
Lemma for_loop_inv I a b body s :
  a ≤ b → I a s →
  (∀ i s, a ≤ i < b → I i s → ∃ s', body i s = Some s' ∧ I (i + 1) s') →
  ∃ s', for_loop a b body s = Some s' ∧ I b s'.
Proof.
  intros Hab Ha Hstep. unfold for_loop.
  destruct (for_loop_from_inv I body (Z.to_nat (b - a)) a s) as (s' & E & H);
    [done | intros i s0 Hi; apply Hstep; lia |].
  exists s'. split; [done |].
  by replace (a + Z.of_nat (Z.to_nat (b - a))) with b in H by lia.
Qed.
End loops.

(** * Sums and vectors *)

Lemma sum_Z_app l k : sum_Z (l ++ k) = sum_Z l + sum_Z k.
Proof. induction l as [|x l IH]; simpl; lia. Qed.

Lemma sum_Z_replicate n x : sum_Z (replicate n x) = Z.of_nat n * x.
Proof. induction n as [|n IH]; simpl; lia. Qed.

Lemma vec_store_Some i x (v : list Z) :
  0 ≤ i < Z.of_nat (length v) → vec_store i x v = Some (<[Z.to_nat i := x]> v).
Proof. intros H. unfold vec_store. by rewrite decide_True. Qed.

Lemma vec_load_Some i x (v : list Z) :
  0 ≤ i → v !! Z.to_nat i = Some x → vec_load i v = Some x.
Proof. intros H E. unfold vec_load. by rewrite decide_True. Qed.

Lemma vec_resize_Some n (v : list Z) :
  0 ≤ n → vec_resize n v = Some (resize (Z.to_nat n) 0 v).
Proof. intros H. unfold vec_resize. by rewrite decide_True. Qed.

(** A segment loop extends the part of the vector written so far. *)
Lemma fill_prefix a b x (v p : list Z) :
  0 ≤ a ≤ b → b ≤ Z.of_nat (length v) → take (Z.to_nat a) v = p →
  ∃ v', fill a b x v = Some v' ∧ length v' = length v
        ∧ take (Z.to_nat b) v' = p ++ replicate (Z.to_nat (b - a)) x.
Proof.
  intros Hab Hb Hp. unfold fill.
  destruct (for_loop_inv
    (λ i (w : list Z), length w = length v
       ∧ take (Z.to_nat i) w = p ++ replicate (Z.to_nat (i - a)) x)
    a b (λ i w, vec_store i x w) v) as (v' & E & Hlen & Htake); [lia | | | eauto].
  - split; [done |]. rewrite Z.sub_diag. simpl. by rewrite app_nil_r.
  - intros i w Hi [Hlen Htake]. eexists. split.
    { apply vec_store_Some. lia. }
    split; [by rewrite length_insert |].
    replace (Z.to_nat (i + 1)) with (Datatypes.S (Z.to_nat i)) by lia.
    replace (Z.to_nat (i + 1 - a)) with (Datatypes.S (Z.to_nat (i - a))) by lia.
    rewrite (take_S_r _ _ x); [| apply list_lookup_insert_eq; lia].
    rewrite take_insert_ge; [| lia].
    by rewrite Htake, replicate_S_end, app_assoc.
Qed.

(** * The closed forms on a valid configuration *)

Lemma length_era n step rest :
  0 ≤ n → Z.of_nat (length (era n step rest)) = n + extra rest.
Proof.
  intros Hn. unfold era, extra. rewrite length_app, length_replicate.
  case_decide; simpl; lia.
Qed.

Lemma sum_Z_era n step rest :
  0 ≤ n → sum_Z (era n step rest) = n * step + rest.
Proof.
  intros Hn. unfold era. rewrite sum_Z_app, sum_Z_replicate, Z2Nat.id by done.
  case_decide; simpl; lia.
Qed.

Lemma Forall_era n step rest :
  1 ≤ step → 0 ≤ rest → Forall (λ s, 1 ≤ s) (era n step rest).
Proof.
  intros Hs Hl. unfold era. apply Forall_app. split.
  - by apply Forall_replicate.
  - case_decide; [constructor |]. repeat constructor. lia.
Qed.

Section closed_forms.
Variable mt : Modeltime.
Hypothesis Hvalid : valid_eras mt.

Lemma whole_nonneg : 0 ≤ whole1 mt ∧ 0 ≤ whole2 mt ∧ 0 ≤ whole3 mt.
Proof.
  destruct Hvalid as (? & ? & ? & ? & ? & ?).
  unfold whole1, whole2, whole3. repeat split; apply Z.quot_pos; lia.
Qed.

Lemma left_bound :
  0 ≤ left1 mt < timeStep1 mt ∧ 0 ≤ left2 mt < timeStep2 mt
  ∧ 0 ≤ left3 mt < timeStep3 mt.
Proof.
  destruct Hvalid as (? & ? & ? & ? & ? & ?).
  unfold left1, left2, left3. repeat split; apply Z.rem_bound_pos; lia.
Qed.

(** Each era is its whole steps plus its leftover. *)
Lemma era_spans :
  interYear1 mt - startYear mt = whole1 mt * timeStep1 mt + left1 mt
  ∧ interYear2 mt - interYear1 mt = whole2 mt * timeStep2 mt + left2 mt
  ∧ endYear mt - interYear2 mt = whole3 mt * timeStep3 mt + left3 mt.
Proof.
  destruct Hvalid as (? & ? & ? & ? & ? & ?).
  unfold whole1, whole2, whole3, left1, left2, left3.
  repeat split.
  - rewrite (Z.quot_rem' (interYear1 mt - startYear mt) (timeStep1 mt)) at 1. lia.
  - rewrite (Z.quot_rem' (interYear2 mt - interYear1 mt) (timeStep2 mt)) at 1. lia.
  - rewrite (Z.quot_rem' (endYear mt - interYear2 mt) (timeStep3 mt)) at 1. lia.
Qed.

Lemma extra_bound rest : 0 ≤ extra rest ≤ 1.
Proof. unfold extra. case_decide; lia. Qed.

Lemma periods_pos : 1 ≤ periods mt.
Proof.
  destruct whole_nonneg as (? & ? & ?). unfold periods.
  pose proof (extra_bound (left1 mt)). pose proof (extra_bound (left2 mt)).
  pose proof (extra_bound (left3 mt)). lia.
Qed.

Lemma length_steps : Z.of_nat (length (steps mt)) = periods mt.
Proof.
  destruct whole_nonneg as (? & ? & ?). unfold steps, periods.
  rewrite !length_app, !Nat2Z.inj_add, !length_era; lia.
Qed.

Lemma sum_Z_steps :
  sum_Z (steps mt) = endYear mt - startYear mt + timeStep1 mt.
Proof.
  destruct whole_nonneg as (? & ? & ?). destruct era_spans as (? & ? & ?).
  unfold steps. rewrite !sum_Z_app, !sum_Z_era; lia.
Qed.

Lemma Forall_steps : Forall (λ s, 1 ≤ s) (steps mt).
Proof.
  destruct Hvalid as (? & ? & ? & ? & ? & ?).
  destruct left_bound as (? & ? & ?).
  unfold steps. rewrite !Forall_app.
  repeat split; apply Forall_era; lia.
Qed.

(** Period 0 carries the first era's nominal step. *)
Lemma steps_head : steps mt = timeStep1 mt :: tail (steps mt).
Proof.
  destruct whole_nonneg as (? & ? & ?). unfold steps, era.
  replace (Z.to_nat (whole1 mt + 1)) with (Datatypes.S (Z.to_nat (whole1 mt))) by lia.
  reflexivity.
Qed.

Lemma sum_Z_tail_steps :
  sum_Z (tail (steps mt)) = endYear mt - startYear mt.
Proof.
  pose proof sum_Z_steps as H. rewrite steps_head in H. simpl in H. lia.
Qed.

Lemma length_tail_steps :
  Z.of_nat (length (tail (steps mt))) = periods mt - 1.
Proof.
  pose proof length_steps as H. rewrite steps_head in H. simpl in H. lia.
Qed.

Lemma steps_lookup (j : nat) :
  Z.of_nat j < periods mt → ∃ s, steps mt !! j = Some s ∧ 1 ≤ s.
Proof.
  intros Hj. destruct (lookup_lt_is_Some_2 (steps mt) j) as [s Hs].
  { pose proof length_steps. lia. }
  exists s. split; [done |].
  by apply (Forall_lookup_1 _ _ _ _ Forall_steps Hs).
Qed.

Lemma year_at_0 : year_at mt 0 = startYear mt.
Proof. unfold year_at. simpl. lia. Qed.

(** The year of a period is the year before plus the period's step. *)
Lemma year_at_S (j : nat) s :
  steps mt !! Datatypes.S j = Some s →
  year_at mt (Datatypes.S j) = year_at mt j + s.
Proof.
  intros Hs. unfold year_at.
  rewrite (take_S_r _ _ s); [| by rewrite lookup_tail].
  rewrite sum_Z_app. simpl. lia.
Qed.

Lemma year_at_last :
  year_at mt (Z.to_nat (periods mt - 1)) = endYear mt.
Proof.
  unfold year_at. rewrite take_ge.
  - rewrite sum_Z_tail_steps. lia.
  - pose proof length_tail_steps. lia.
Qed.

Lemma year_at_lt_S (j : nat) :
  Z.of_nat (Datatypes.S j) < periods mt →
  year_at mt j < year_at mt (Datatypes.S j).
Proof.
  intros Hj. destruct (steps_lookup (Datatypes.S j) Hj) as (s & Hs & H1).
  rewrite (year_at_S j s Hs). lia.
Qed.

Lemma year_at_mono (i j : nat) :
  (i < j)%nat → Z.of_nat j < periods mt → year_at mt i < year_at mt j.
Proof.
  intros Hij. induction Hij as [|j Hle IH]; intros Hj.
  - by apply year_at_lt_S.
  - etrans; [apply IH; lia | by apply year_at_lt_S].
Qed.

Lemma year_at_ge_start (j : nat) :
  Z.of_nat j < periods mt → startYear mt ≤ year_at mt j.
Proof.
  intros Hj. destruct j as [|j]; [rewrite year_at_0; lia |].
  pose proof (year_at_mono 0 (Datatypes.S j) ltac:(lia) Hj) as H.
  rewrite year_at_0 in H. lia.
Qed.

Lemma year_at_le_end (j : nat) :
  Z.of_nat j < periods mt → year_at mt j ≤ endYear mt.
Proof.
  intros Hj. pose proof periods_pos.
  destruct (decide (j = Z.to_nat (periods mt - 1))) as [-> | Hne].
  - rewrite year_at_last. lia.
  - pose proof (year_at_mono j (Z.to_nat (periods mt - 1)) ltac:(lia) ltac:(lia)) as Hlt.
    rewrite year_at_last in Hlt. lia.
Qed.

(** Every year after the start year up to the year of a period lies in
    the block of years that ends at some period. *)
Lemma year_block (k : nat) y :
  Z.of_nat k < periods mt → startYear mt < y ≤ year_at mt k →
  ∃ j : nat, (1 ≤ j ≤ k)%nat ∧ year_at mt (j - 1) < y ≤ year_at mt j.
Proof.
  induction k as [|k IH]; intros Hk Hy.
  - rewrite year_at_0 in Hy. lia.
  - destruct (decide (y ≤ year_at mt k)) as [Hle | Hgt].
    + destruct IH as (j & Hj & Hb); [lia | lia |]. exists j. split; [lia | done].
    + exists (Datatypes.S k). split; [lia |].
      replace (Datatypes.S k - 1)%nat with k by lia. lia.
Qed.
End closed_forms.

(** * The walk over the periods *)

Lemma int_div_Some a b : b ≠ 0 → int_div a b = Some (a ÷ b).
Proof. intros H. unfold int_div. by rewrite decide_False. Qed.

Lemma int_mod_Some a b : b ≠ 0 → int_mod a b = Some (Z.rem a b).
Proof. intros H. unfold int_mod. by rewrite decide_False. Qed.

(** The years between two periods, and the later period's own year, all go
    to the later period. *)
Lemma between_spec b s i (m : gmap Z Z) :
  1 ≤ s →
  ∃ m', (if decide (1 < s)
         then for_loop 1 s (λ y m, Some (<[b + y := i]> m)) (<[b + s := i]> m)
         else Some (<[b + s := i]> m)) = Some m'
        ∧ ∀ y, m' !! y = if decide (b < y ≤ b + s) then Some i else m !! y.
Proof.
  intros Hs. case_decide as H1.
  - destruct (for_loop_inv
      (λ k (mm : gmap Z Z), ∀ y,
         mm !! y = if decide (b < y < b + k ∨ y = b + s) then Some i else m !! y)
      1 s (λ y m, Some (<[b + y := i]> m)) (<[b + s := i]> m))
      as (m' & E & Hm'); [lia | | |].
    + intros y. rewrite lookup_insert. repeat case_decide; (done || lia).
    + intros k mm Hk Hmm. eexists. split; [done |].
      intros y. rewrite lookup_insert, Hmm. repeat case_decide; (done || lia).
    + exists m'. split; [done |].
      intros y. rewrite Hm'. repeat case_decide; (done || lia).
  - eexists. split; [done |].
    intros y. rewrite lookup_insert. repeat case_decide; (done || lia).
Qed.

Section walk.
Variable mt : Modeltime.
Hypothesis Hvalid : valid_eras mt.

Lemma walk_step m0 i st :
  1 ≤ i < periods mt → walk_inv mt m0 i st →
  ∃ st', walk_body (steps mt) i st = Some st' ∧ walk_inv mt m0 (i + 1) st'.
Proof.
  intros Hi. destruct st as [[b m] p].
  intros (Hlen & Hb & Hp & Hsy & Hin & Hout).
  destruct (steps_lookup mt Hvalid (Z.to_nat i)) as (s & Hs & H1); [lia |].
  destruct (between_spec b s i m H1) as (m' & Em' & Hm').
  assert (Hnext : year_at mt (Z.to_nat i) = b + s).
  { replace (Z.to_nat i) with (Datatypes.S (Z.to_nat (i - 1))) in * by lia.
    rewrite (year_at_S mt _ s Hs). lia. }
  assert (Hge : startYear mt ≤ b).
  { subst b. apply (year_at_ge_start mt Hvalid). lia. }
  exists (b + s, m', <[Z.to_nat i := b + s]> p). split.
  { unfold walk_body. rewrite (vec_load_Some i s) by (lia || done). simpl.
    rewrite vec_store_Some by lia. simpl. rewrite Em'. done. }
  unfold walk_inv. repeat split.
  - by rewrite length_insert.
  - by replace (i + 1 - 1) with i by lia.
  - intros j Hj. destruct (decide (j = Z.to_nat i)) as [-> | Hne].
    + rewrite list_lookup_insert_eq by lia. by rewrite Hnext.
    + rewrite list_lookup_insert_ne by done. apply Hp. lia.
  - rewrite Hm'. rewrite decide_False by lia. done.
  - intros j y Hj1 Hj Hy. rewrite Hm'.
    destruct (decide (j = Z.to_nat i)) as [-> | Hne].
    + replace (Z.to_nat i - 1)%nat with (Z.to_nat (i - 1)) in Hy by lia.
      rewrite Hnext, <- Hb in Hy. rewrite decide_True by lia.
      f_equal. lia.
    + assert (year_at mt j ≤ b).
      { subst b. destruct (decide (j = Z.to_nat (i - 1))) as [-> | Hne']; [lia |].
        pose proof (year_at_mono mt Hvalid j (Z.to_nat (i - 1))
                      ltac:(lia) ltac:(lia)). lia. }
      rewrite decide_False by lia. apply Hin; (done || lia).
  - intros y Hy. rewrite Hm'. rewrite decide_False by lia. apply Hout. lia.
Qed.

Lemma walk_spec (m0 : gmap Z Z) (p0 : list Z) :
  Z.of_nat (length p0) = periods mt →
  p0 !! 0%nat = Some (startYear mt) →
  m0 !! startYear mt = Some 0 →
  ∃ b m p,
    for_loop 1 (periods mt) (walk_body (steps mt)) (startYear mt, m0, p0)
      = Some (b, m, p)
    ∧ walk_inv mt m0 (periods mt) (b, m, p).
Proof.
  intros Hlen H0 Hsy. pose proof (periods_pos mt Hvalid).
  destruct (for_loop_inv (walk_inv mt m0) 1 (periods mt)
              (walk_body (steps mt)) (startYear mt, m0, p0))
    as ([[b m] p] & E & HI); [lia | | apply walk_step | by eauto].
  unfold walk_inv. repeat split; try done.
  - by rewrite Z.sub_diag, year_at_0.
  - intros j Hj. replace j with 0%nat by lia. by rewrite year_at_0.
  - intros j y Hj1 Hj. lia.
Qed.
End walk.

(** * The alignment of the data grid *)

Lemma map_index_spec k (m : gmap Z Z) :
  ∃ v m', map_index k m = (v, m') ∧ m' !! k = Some v
          ∧ (m !! k = Some v ∧ m' = m
             ∨ m !! k = None ∧ v = 0 ∧ m' = <[k := 0]> m).
Proof.
  unfold map_index. destruct (m !! k) as [v|] eqn:E.
  - exists v, m. eauto.
  - exists 0, (<[k := 0]> m). rewrite lookup_insert_eq. eauto 6.
Qed.

Section align.
Variable mt : Modeltime.
Hypothesis Hvalid : valid_eras mt.

Lemma align_step w k st :
  (∀ y v, w !! y = Some v → 0 ≤ v < periods mt) →
  0 ≤ k < data_periods mt → align_inv mt w k st →
  ∃ st', align_body (startYear mt) (dataTimeStep mt) (data_periods mt)
           (periods mt) (steps mt) k st = Some st'
         ∧ align_inv mt w (k + 1) st'.
Proof.
  intros Hw Hk. destruct st as [[m doff] d2m].
  intros (Hlo & Hld & Hkeep & Hnew & Hdone).
  pose proof (periods_pos mt Hvalid) as Hpos.
  set (y := startYear mt + k * dataTimeStep mt).
  destruct (map_index_spec y m) as (p & m' & Ep & Hp & Hcase).
  assert (Hrange : 0 ≤ p < periods mt).
  { destruct Hcase as [[Hm _] | (_ & -> & _)]; [| lia].
    destruct (w !! y) as [v|] eqn:Ew.
    - apply Hkeep in Ew as Hv. rewrite Hm in Hv. simplify_eq. by eapply Hw.
    - destruct (Hnew y Ew) as [[Hn _] | [Hz _]]; [congruence |].
      rewrite Hm in Hz. simplify_eq. lia. }
  assert (Hmono : ∀ z v, m !! z = Some v → m' !! z = Some v).
  { intros z v Hz. destruct Hcase as [[_ ->] | (Hm & _ & ->)]; [done |].
    rewrite lookup_insert_ne; [done | congruence]. }
  assert (Hother : ∀ z, z ≠ y → m' !! z = m !! z).
  { intros z Hz. destruct Hcase as [[_ ->] | (Hm & _ & ->)]; [done |].
    by rewrite lookup_insert_ne. }
  destruct (steps_lookup mt Hvalid (Z.to_nat p)) as (s & Hs & H1); [lia |].
  set (q := if decide (data_periods mt = periods mt)
            then 0 else dataTimeStep mt ÷ s).
  exists (m', <[Z.to_nat k := q]> doff, <[Z.to_nat k := p]> d2m). split.
  { unfold align_body. fold y. rewrite Ep. subst q. case_decide.
    - rewrite vec_store_Some by lia. simpl. by rewrite vec_store_Some by lia.
    - rewrite (vec_load_Some p s) by (lia || done). simpl.
      rewrite int_div_Some by lia. simpl.
      rewrite vec_store_Some by lia. simpl. by rewrite vec_store_Some by lia. }
  unfold align_inv. repeat split.
  - by rewrite length_insert.
  - by rewrite length_insert.
  - intros z v Hz. apply Hmono, Hkeep, Hz.
  - intros z Hz. destruct (decide (z = y)) as [-> | Hne].
    + right. split.
      * destruct Hcase as [[Hm _] | (_ & -> & _)]; [| done].
        destruct (Hnew y Hz) as [[Hn _] | [Hz0 _]]; congruence.
      * exists k. split; [lia | done].
    + rewrite (Hother z Hne).
      destruct (Hnew z Hz) as [[Hn Hg] | [Hz0 Hg]]; [left | right].
      * split; [done |]. intros (i & Hi & Ei). apply Hg.
        exists i. split; [| done].
        destruct (decide (i = k)) as [-> | ?]; [done | lia].
      * split; [done |]. destruct Hg as (i & Hi & Ei).
        exists i. split; [lia | done].
  - intros i Hi. destruct (decide (i = Z.to_nat k)) as [-> | Hne].
    + exists p, s. rewrite Z2Nat.id by lia. fold y.
      rewrite !list_lookup_insert_eq by lia. repeat split; (done || lia).
    + destruct (Hdone i) as (p' & s' & Hm' & Hd & Hp0 & Hs' & Ho); [lia |].
      exists p', s'. rewrite !list_lookup_insert_ne by done.
      repeat split; try done. by apply Hmono.
Qed.

Lemma align_spec (w : gmap Z Z) (doff0 d2m0 : list Z) :
  0 ≤ data_periods mt →
  Z.of_nat (length doff0) = data_periods mt →
  Z.of_nat (length d2m0) = data_periods mt →
  (∀ y v, w !! y = Some v → 0 ≤ v < periods mt) →
  ∃ m doff d2m,
    for_loop 0 (data_periods mt)
      (align_body (startYear mt) (dataTimeStep mt) (data_periods mt)
         (periods mt) (steps mt)) (w, doff0, d2m0) = Some (m, doff, d2m)
    ∧ align_inv mt w (data_periods mt) (m, doff, d2m).
Proof.
  intros Hn Hlo Hld Hw.
  destruct (for_loop_inv (align_inv mt w) 0 (data_periods mt)
    (align_body (startYear mt) (dataTimeStep mt) (data_periods mt)
       (periods mt) (steps mt)) (w, doff0, d2m0))
    as ([[m doff] d2m] & E & HI);
    [done | | intros k st; by apply align_step | by eauto].
  unfold align_inv. repeat split; try done.
  - intros y Hy. left. split; [done |]. intros (i & Hi & _). lia.
  - intros i Hi. lia.
Qed.
End align.

(** * What [set] leaves behind *)

Lemma count_extra n r text (log : list LogEntry) :
  (if decide (r ≠ 0) then (n + 1, log_line WARNING text log) else (n, log))
  = (n + extra r, log ++ warning r text).
Proof.
  unfold extra, warning, log_line.
  destruct (decide (r = 0)); [rewrite decide_False by tauto | rewrite decide_True by done].
  - by rewrite Z.add_0_r, app_nil_r.
  - done.
Qed.

Lemma replicate_extra n r :
  replicate (Z.to_nat (n + extra r - n)) r = if decide (r = 0) then [] else [r].
Proof.
  unfold extra. case_decide.
  - by replace (n + 0 - n) with 0 by lia.
  - by replace (n + 1 - n) with 1 by lia.
Qed.

Theorem set_spec mt log :
  valid mt → clean_outside mt →
  ∃ mt', set mt log = Some (tt, mt', log ++ warnings mt) ∧ set_post mt mt'.
Proof.
  intros [Heras [Hdts Hdata]] Hclean.
  pose proof Heras as (Hy1 & Hy2 & Hy3 & Ht1 & Ht2 & Ht3).
  destruct (whole_nonneg mt Heras) as (Hw1 & Hw2 & Hw3).
  pose proof (extra_bound (left1 mt)) as Hx1.
  pose proof (extra_bound (left2 mt)) as Hx2.
  pose proof (extra_bound (left3 mt)) as Hx3.
  pose proof (periods_pos mt Heras) as Hpos.
  unfold set.
  rewrite !int_div_Some, !int_mod_Some by lia.
  cbn [mbind option_bind].
  fold (whole1 mt) (whole2 mt) (whole3 mt) (left1 mt) (left2 mt) (left3 mt)
       (data_periods mt).
  rewrite !count_extra.
  fold (periods mt).
  rewrite !vec_resize_Some by lia. cbn [mbind option_bind].
  set (v0 := resize (Z.to_nat (periods mt)) 0 (periodToTimeStep mt)).
  assert (L0 : Z.of_nat (length v0) = periods mt).
  { subst v0. rewrite length_resize. lia. }
  assert (Hper : periods mt = whole1 mt + 1 + extra (left1 mt)
                   + (whole2 mt + extra (left2 mt))
                   + (whole3 mt + extra (left3 mt))) by done.
  destruct (fill_prefix 0 (whole1 mt + 1) (timeStep1 mt) v0 [])
    as (v1 & -> & L1 & T1); [lia | lia | done |].
  cbn [mbind option_bind]. rewrite Z.sub_0_r in T1.
  destruct (fill_prefix (whole1 mt + 1) (whole1 mt + 1 + extra (left1 mt))
              (left1 mt) v1 _ ltac:(lia) ltac:(lia) T1)
    as (v2 & -> & L2 & T2).
  cbn [mbind option_bind]. rewrite replicate_extra in T2.
  destruct (fill_prefix (whole1 mt + 1 + extra (left1 mt))
              (whole1 mt + 1 + extra (left1 mt) + whole2 mt)
              (timeStep2 mt) v2 _ ltac:(lia) ltac:(lia) T2)
    as (v3 & -> & L3 & T3).
  cbn [mbind option_bind].
  destruct (fill_prefix (whole1 mt + 1 + extra (left1 mt) + whole2 mt)
              (whole1 mt + 1 + extra (left1 mt) + (whole2 mt + extra (left2 mt)))
              (left2 mt) v3 _ ltac:(lia) ltac:(lia) T3)
    as (v4 & -> & L4 & T4).
  cbn [mbind option_bind].
  replace (whole1 mt + 1 + extra (left1 mt) + (whole2 mt + extra (left2 mt))
           - (whole1 mt + 1 + extra (left1 mt) + whole2 mt))
    with (whole2 mt + extra (left2 mt) - whole2 mt) in T4 by lia.
  rewrite replicate_extra in T4.
  destruct (fill_prefix
              (whole1 mt + 1 + extra (left1 mt) + (whole2 mt + extra (left2 mt)))
              (whole1 mt + 1 + extra (left1 mt) + (whole2 mt + extra (left2 mt))
               + whole3 mt)
              (timeStep3 mt) v4 _ ltac:(lia) ltac:(lia) T4)
    as (v5 & -> & L5 & T5).
  cbn [mbind option_bind].
  destruct (fill_prefix
              (whole1 mt + 1 + extra (left1 mt) + (whole2 mt + extra (left2 mt))
               + whole3 mt)
              (periods mt) (left3 mt) v5 _ ltac:(lia) ltac:(lia) T5)
    as (v6 & -> & L6 & T6).
  cbn [mbind option_bind].
  replace (periods mt - (whole1 mt + 1 + extra (left1 mt)
                         + (whole2 mt + extra (left2 mt)) + whole3 mt))
    with (whole3 mt + extra (left3 mt) - whole3 mt) in T6 by lia.
  rewrite replicate_extra in T6.
  rewrite take_ge in T6 by lia.
  assert (Hv6 : v6 = steps mt).
  { rewrite T6. unfold steps, era.
    replace (whole1 mt + 1 + extra (left1 mt) + whole2 mt
             - (whole1 mt + 1 + extra (left1 mt))) with (whole2 mt) by lia.
    replace (whole1 mt + 1 + extra (left1 mt) + (whole2 mt + extra (left2 mt))
             + whole3 mt
             - (whole1 mt + 1 + extra (left1 mt) + (whole2 mt + extra (left2 mt))))
      with (whole3 mt) by lia.
    by rewrite app_nil_l, <- !app_assoc. }
  clear T1 T2 T3 T4 T5 T6 L1 L2 L3 L4 L5 L6 v1 v2 v3 v4 v5. subst v6. clear L0 v0.
  rewrite vec_store_Some by (rewrite length_resize; lia).
  cbn [mbind option_bind].
  destruct (walk_spec mt Heras (<[startYear mt := 0]> (yearToModelPeriod mt))
              (<[Z.to_nat 0 := startYear mt]>
                 (resize (Z.to_nat (periods mt)) 0 (modelPeriodToYear mt))))
    as (b & w & p2y & -> & Hlen & Hb & Hyears & Hstart & Hblock & Hout).
  { rewrite length_insert, length_resize. lia. }
  { apply list_lookup_insert_eq. rewrite length_resize. lia. }
  { apply lookup_insert_eq. }
  cbn [mbind option_bind].
  rewrite (year_at_last mt Heras) in Hb. subst b.
  assert (Hw : ∀ y v, w !! y = Some v → 0 ≤ v < periods mt).
  { intros y v Hy.
    destruct (decide (y < startYear mt ∨ endYear mt < y)) as [Ho | Hi].
    - rewrite (Hout y Ho), lookup_insert_ne in Hy by lia.
      rewrite (Hclean y v Hy Ho). lia.
    - destruct (decide (y = startYear mt)) as [-> | Hne].
      + rewrite Hstart in Hy. simplify_eq. lia.
      + destruct (year_block mt (Z.to_nat (periods mt - 1)) y)
          as (j & Hj & Hjy); [lia | rewrite (year_at_last mt Heras); lia |].
        rewrite (Hblock j y) in Hy by (lia || done). simplify_eq. lia. }
  destruct (align_spec mt Heras w
              (resize (Z.to_nat (data_periods mt)) 0 (dataOffset mt))
              (resize (Z.to_nat (data_periods mt)) 0 (dataPeriodToModelPeriod mt)))
    as (m & doff & d2m & -> & Hlo & Hld & Hkeep & Hnew & Hdone).
  { done. }
  { rewrite length_resize. lia. }
  { rewrite length_resize. lia. }
  { done. }
  cbn [mbind option_bind].
  eexists. split.
  { unfold warnings. by rewrite <- !app_assoc. }
  constructor; cbn; try done.
  - by apply Hkeep.
  - intros j y Hj1 Hj Hy. apply Hkeep. by apply Hblock.
  - intros y Hy.
    specialize (Hout y Hy). rewrite lookup_insert_ne in Hout by lia.
    destruct (yearToModelPeriod mt !! y) as [v|] eqn:Eold.
    + left. rewrite (Hclean y v Eold Hy) in *. split; [| by left].
      by apply Hkeep.
    + destruct (Hnew y Hout) as [[Hn Hg] | [Hz Hg]]; [by right | left].
      split; [done |]. by right.
Qed.

(** * The scenarios are valid configurations *)

Lemma parsed_clean sy iy1 iy2 ey ts1 ts2 ts3 dey dts :
  clean_outside (parsed sy iy1 iy2 ey ts1 ts2 ts3 dey dts).
Proof. intros y v Hy. cbn in Hy. by rewrite lookup_empty in Hy. Qed.

Lemma scenarioA_valid : valid scenarioA.
Proof. decide_valid. Qed.

Lemma scenarioA_clean : clean_outside scenarioA.
Proof. apply parsed_clean. Qed.

Lemma scenarioB_valid : valid scenarioB.
Proof. decide_valid. Qed.

Lemma scenarioYearly_valid : valid scenarioYearly.
Proof. decide_valid. Qed.

Lemma scenarioOver_valid : valid scenarioOver.
Proof. decide_valid. Qed.

(** Objects with the same configuration have the same closed forms. *)
Lemma same_config_closed a b :
  same_config a b →
  (valid a → valid b)
  ∧ steps b = steps a ∧ periods b = periods a
  ∧ data_periods b = data_periods a
  ∧ (∀ j, year_at b j = year_at a j)
  ∧ (∀ y, data_year b y ↔ data_year a y)
  ∧ warnings b = warnings a
  ∧ whole1 b = whole1 a ∧ whole2 b = whole2 a ∧ whole3 b = whole3 a
  ∧ left1 b = left1 a ∧ left2 b = left2 a ∧ left3 b = left3 a.
Proof.
  destruct a, b. unfold same_config. cbn.
  intros (? & ? & ? & ? & ? & ? & ? & ? & ?). by simplify_eq.
Qed.

(** * The period counts (C1) *)

(** C1, as stated, fails on scenario A: [set] leaves four periods in era 1,
    one more than the quotient [(2005 - 1990) / 5 = 3], because the count
    includes the period of the start year. *)
Lemma C1_counterexample :
  valid scenarioA ∧ clean_outside scenarioA
  ∧ ∃ mt' log',
      set scenarioA [] = Some (tt, mt', log')
      ∧ numberOfPeriods1 mt' = 4
      ∧ (interYear1 scenarioA - startYear scenarioA) ÷ timeStep1 scenarioA = 3.
Proof.
  split; [apply scenarioA_valid |]. split; [apply scenarioA_clean |].
  eexists _, _. split; [vm_compute; reflexivity |]. by vm_compute.
Qed.

(** C1, amended: on every valid configuration [set] returns, the counts of
    eras 2 and 3 are the truncating quotients of the era span by the era
    step, and the count of era 1 is that quotient plus one, for the period
    of the start year.  With startYear = 2000, interYear1 = 2007 and
    timeStep1 = 5 this makes numberOfPeriods1 = 2 and numberOfPeriods1a = 3;
    with startYear = 1990, interYear1 = 2005 and timeStep1 = 5 (scenario A)
    era 1 has 4 periods. *)
Theorem C1_period_counts mt log :
  valid mt → clean_outside mt →
  ∃ mt' log',
    set mt log = Some (tt, mt', log')
    ∧ numberOfPeriods1 mt'
      = (interYear1 mt - startYear mt) ÷ timeStep1 mt + 1
    ∧ numberOfPeriods2 mt' = (interYear2 mt - interYear1 mt) ÷ timeStep2 mt
    ∧ numberOfPeriods3 mt' = (endYear mt - interYear2 mt) ÷ timeStep3 mt
    ∧ (startYear mt = 2000 → interYear1 mt = 2007 → timeStep1 mt = 5 →
       numberOfPeriods1 mt' = 2 ∧ numberOfPeriods1a mt' = 3)
    ∧ (startYear mt = 1990 → interYear1 mt = 2005 → timeStep1 mt = 5 →
       numberOfPeriods1 mt' = 4 ∧ numberOfPeriods1a mt' = 4).
Proof.
  intros Hv Hc. destruct (set_spec mt log Hv Hc) as (mt' & E & P).
  exists mt', (log ++ warnings mt). split; [done |].
  rewrite (post_n1 _ _ P), (post_n2 _ _ P), (post_n3 _ _ P), (post_n1a _ _ P).
  unfold whole1, whole2, whole3, left1.
  do 3 (split; [done |]).
  split; intros Hs Hi Ht; rewrite Hs, Hi, Ht; done.
Qed.

Lemma C1_period_counts_witness :
  valid scenarioB ∧ clean_outside scenarioB
  ∧ ∃ mt' log',
      set scenarioB [] = Some (tt, mt', log')
      ∧ numberOfPeriods1 mt' = 2 ∧ numberOfPeriods1a mt' = 3.
Proof.
  split; [apply scenarioB_valid |]. split; [apply parsed_clean |].
  destruct (C1_period_counts scenarioB [] scenarioB_valid
              (parsed_clean _ _ _ _ _ _ _ _ _))
    as (mt' & log' & E & _ & _ & _ & HB & _).
  exists mt', log'. split; [exact E |]. by apply HB.
Defined.

(** * The steps and the years of the periods (C2, C3) *)

(** C2, as stated, fails on scenario A: the sixteen steps sum to 110, the
    span [2095 - 1990] is 105.  Entry 0 holds a step as well. *)
Lemma C2_counterexample :
  valid scenarioA ∧ clean_outside scenarioA
  ∧ ∃ mt' log',
      set scenarioA [] = Some (tt, mt', log')
      ∧ Z.of_nat (length (periodToTimeStep mt')) = maxPeriod mt'
      ∧ sum_Z (periodToTimeStep mt') = 110
      ∧ endYear scenarioA - startYear scenarioA = 105.
Proof.
  split; [apply scenarioA_valid |]. split; [apply scenarioA_clean |].
  eexists _, _. split; [vm_compute; reflexivity |]. by vm_compute.
Qed.

(** C2, amended: on every valid configuration [periodToTimeStep] has
    [maxPeriod] entries, entry 0 is [timeStep1], the entries sum to
    [endYear - startYear + timeStep1], and the entries of the periods
    [1 .. maxPeriod-1] sum to [endYear - startYear]. *)
Theorem C2_steps_sum mt log :
  valid mt → clean_outside mt →
  ∃ mt' log',
    set mt log = Some (tt, mt', log')
    ∧ Z.of_nat (length (periodToTimeStep mt')) = maxPeriod mt'
    ∧ vec_load 0 (periodToTimeStep mt') = Some (timeStep1 mt)
    ∧ sum_Z (periodToTimeStep mt') = endYear mt - startYear mt + timeStep1 mt
    ∧ sum_Z (tail (periodToTimeStep mt')) = endYear mt - startYear mt.
Proof.
  intros Hv Hc. destruct (set_spec mt log Hv Hc) as (mt' & E & P).
  exists mt', (log ++ warnings mt). split; [done |].
  destruct Hv as [He _].
  rewrite (post_steps _ _ P), (post_max _ _ P).
  split; [by apply length_steps |].
  split; [by rewrite (steps_head mt He) |].
  split; [by apply sum_Z_steps | by apply sum_Z_tail_steps].
Qed.

Lemma C2_steps_sum_witness :
  valid scenarioA ∧ clean_outside scenarioA
  ∧ ∃ mt' log',
      set scenarioA [] = Some (tt, mt', log')
      ∧ sum_Z (tail (periodToTimeStep mt')) = 105.
Proof.
  split; [apply scenarioA_valid |]. split; [apply scenarioA_clean |].
  destruct (C2_steps_sum scenarioA [] scenarioA_valid scenarioA_clean)
    as (mt' & log' & E & _ & _ & _ & H).
  exists mt', log'. split; [exact E | exact H].
Defined.

(** C3: on every valid configuration [modelPeriodToYear] has [maxPeriod]
    entries, is strictly increasing, starts at [startYear] and ends, at
    index [maxPeriod - 1], at [endYear]. *)
Theorem C3_years_increasing mt log :
  valid mt → clean_outside mt →
  ∃ mt' log',
    set mt log = Some (tt, mt', log')
    ∧ Z.of_nat (length (modelPeriodToYear mt')) = maxPeriod mt'
    ∧ (∀ i j yi yj, 0 ≤ i → i < j → j < maxPeriod mt' →
         vec_load i (modelPeriodToYear mt') = Some yi →
         vec_load j (modelPeriodToYear mt') = Some yj → yi < yj)
    ∧ vec_load 0 (modelPeriodToYear mt') = Some (startYear mt)
    ∧ vec_load (maxPeriod mt' - 1) (modelPeriodToYear mt') = Some (endYear mt).
Proof.
  intros Hv Hc. destruct (set_spec mt log Hv Hc) as (mt' & E & P).
  exists mt', (log ++ warnings mt). split; [done |].
  destruct Hv as [He _]. pose proof (periods_pos mt He) as Hpos.
  rewrite (post_max _ _ P).
  split; [by apply (post_years_length _ _ P) |].
  split; [| split].
  - intros i j yi yj Hi Hij Hj Ei Ej.
    unfold vec_load in Ei, Ej.
    rewrite decide_True in Ei by lia. rewrite decide_True in Ej by lia.
    rewrite (post_years _ _ P) in Ei by lia.
    rewrite (post_years _ _ P) in Ej by lia. simplify_eq.
    apply (year_at_mono mt He); lia.
  - unfold vec_load. rewrite decide_True by lia.
    rewrite (post_years _ _ P (Z.to_nat 0)) by lia. by rewrite year_at_0.
  - unfold vec_load. rewrite decide_True by lia.
    rewrite (post_years _ _ P) by lia. by rewrite (year_at_last mt He).
Qed.

Lemma C3_years_increasing_witness :
  valid scenarioB ∧ clean_outside scenarioB
  ∧ ∃ mt' log',
      set scenarioB [] = Some (tt, mt', log')
      ∧ vec_load (maxPeriod mt' - 1) (modelPeriodToYear mt') = Some 2097.
Proof.
  split; [apply scenarioB_valid |]. split; [apply parsed_clean |].
  destruct (C3_years_increasing scenarioB [] scenarioB_valid
              (parsed_clean _ _ _ _ _ _ _ _ _))
    as (mt' & log' & E & _ & _ & _ & H).
  exists mt', log'. split; [exact E | exact H].
Defined.

(** * Years back to periods (C4, C5, C6) *)

Lemma getyr_to_per_hit year p mt log :
  yearToModelPeriod mt !! year = Some p →
  getyr_to_per year mt log = Some (p, mt, log).
Proof. intros H. unfold getyr_to_per. by rewrite H. Qed.

(** C4: on every valid configuration and for every period [i] in
    [0, maxPeriod), [getyr_to_per] applied to [modelPeriodToYear[i]]
    returns [i] (and logs nothing). *)
Theorem C4_round_trip mt log :
  valid mt → clean_outside mt →
  ∃ mt' log',
    set mt log = Some (tt, mt', log')
    ∧ ∀ i, 0 ≤ i < maxPeriod mt' →
        ∃ y, vec_load i (modelPeriodToYear mt') = Some y
             ∧ getyr_to_per y mt' log' = Some (i, mt', log').
Proof.
  intros Hv Hc. destruct (set_spec mt log Hv Hc) as (mt' & E & P).
  exists mt', (log ++ warnings mt). split; [done |].
  destruct Hv as [He _]. rewrite (post_max _ _ P). intros i Hi.
  exists (year_at mt (Z.to_nat i)). split.
  { apply vec_load_Some; [lia |]. apply (post_years _ _ P). lia. }
  apply getyr_to_per_hit.
  destruct (decide (i = 0)) as [-> | Hne].
  - rewrite year_at_0. apply (post_map_start _ _ P).
  - rewrite <- (Z2Nat.id i) at 2 by lia.
    apply (post_map_block _ _ P); [lia | lia |].
    pose proof (year_at_lt_S mt He (Z.to_nat i - 1)) as Hlt.
    replace (Datatypes.S (Z.to_nat i - 1)) with (Z.to_nat i) in Hlt by lia.
    lia.
Qed.

Lemma C4_round_trip_witness :
  valid scenarioB ∧ clean_outside scenarioB
  ∧ ∃ mt' log',
      set scenarioB [] = Some (tt, mt', log')
      ∧ ∃ y, vec_load 2 (modelPeriodToYear mt') = Some y
             ∧ getyr_to_per y mt' log' = Some (2, mt', log').
Proof.
  split; [apply scenarioB_valid |]. split; [apply parsed_clean |].
  destruct (C4_round_trip scenarioB [] scenarioB_valid
              (parsed_clean _ _ _ _ _ _ _ _ _)) as (mt' & log' & E & H).
  exists mt', log'. split; [exact E |]. apply H.
  vm_compute in E. injection E as <- _. by vm_compute.
Defined.

(** C5: on every valid configuration, for every period [i >= 1] whose step
    [periodToTimeStep[i]] exceeds one year, the years of periods [i-1] and
    [i] lie that step apart, and every year strictly between them is mapped
    to [i], the later period; so [getyr_to_per] answers. *)
Theorem C5_forward_attribution mt log :
  valid mt → clean_outside mt →
  ∃ mt' log',
    set mt log = Some (tt, mt', log')
    ∧ ∀ i s a b, 1 ≤ i → i < maxPeriod mt' →
        vec_load i (periodToTimeStep mt') = Some s → 1 < s →
        vec_load (i - 1) (modelPeriodToYear mt') = Some a →
        vec_load i (modelPeriodToYear mt') = Some b →
        b = a + s
        ∧ ∀ y, a < y < b →
            yearToModelPeriod mt' !! y = Some i
            ∧ getyr_to_per y mt' log' = Some (i, mt', log').
Proof.
  intros Hv Hc. destruct (set_spec mt log Hv Hc) as (mt' & E & P).
  exists mt', (log ++ warnings mt). split; [done |].
  destruct Hv as [He _].
  rewrite (post_max _ _ P), (post_steps _ _ P).
  intros i s a b Hi1 Hi Es Hs Ea Eb.
  unfold vec_load in Es, Ea, Eb.
  rewrite decide_True in Es by lia. rewrite decide_True in Ea by lia.
  rewrite decide_True in Eb by lia.
  rewrite (post_years _ _ P) in Ea by lia.
  rewrite (post_years _ _ P) in Eb by lia. simplify_eq.
  replace (Z.to_nat i) with (Datatypes.S (Z.to_nat (i - 1))) in * by lia.
  split; [by apply year_at_S |].
  intros y Hy.
  assert (yearToModelPeriod mt' !! y
          = Some (Z.of_nat (Datatypes.S (Z.to_nat (i - 1))))) as Hm.
  { apply (post_map_block _ _ P); [lia | lia |].
    replace (Datatypes.S (Z.to_nat (i - 1)) - 1)%nat with (Z.to_nat (i - 1)) by lia.
    lia. }
  replace (Z.of_nat (Datatypes.S (Z.to_nat (i - 1)))) with i in Hm by lia.
  split; [done | by apply getyr_to_per_hit].
Qed.

Lemma C5_forward_attribution_witness :
  valid scenarioA ∧ clean_outside scenarioA
  ∧ ∃ mt' log',
      set scenarioA [] = Some (tt, mt', log')
      ∧ yearToModelPeriod mt' !! 2041 = Some 10
      ∧ getyr_to_per 2041 mt' log' = Some (10, mt', log').
Proof.
  split; [apply scenarioA_valid |]. split; [apply scenarioA_clean |].
  destruct (C5_forward_attribution scenarioA [] scenarioA_valid scenarioA_clean)
    as (mt' & log' & E & H).
  exists mt', log'. split; [exact E |].
  apply (H 10 10 2035 2045); vm_compute in E; injection E as <- _;
    by vm_compute.
Defined.

(** C6: [getyr_to_per] on a year that is not a key of [yearToModelPeriod]
    returns 0, leaves the object as it is and appends one ERROR entry to
    the log; on a key it returns the mapped period and logs nothing.  It
    never fails. *)
Theorem C6_lookup_miss mt log year :
  (yearToModelPeriod mt !! year = None →
   getyr_to_per year mt log
   = Some (0, mt, log ++ [ {| entry_level := ERROR;
                              entry_text := invalid_year year |} ]))
  ∧ (∀ p, yearToModelPeriod mt !! year = Some p →
          getyr_to_per year mt log = Some (p, mt, log)).
Proof.
  split.
  - intros H. unfold getyr_to_per, log_line. by rewrite H.
  - intros p. apply getyr_to_per_hit.
Qed.

(** Scenario C: year 1800 on scenario A. *)
Lemma C6_lookup_miss_witness :
  ∃ mt' log',
    set scenarioA [] = Some (tt, mt', log')
    ∧ yearToModelPeriod mt' !! 1800 = None
    ∧ getyr_to_per 1800 mt' log'
      = Some (0, mt', log' ++ [ {| entry_level := ERROR;
             entry_text :=
               "Invalid year: 1800 passed to Modeltime::getyr_to_per. " |} ]).
Proof.
  eexists _, _. split; [vm_compute; reflexivity |].
  split; [by vm_compute |].
  apply (C6_lookup_miss _ _ 1800). by vm_compute.
Defined.

(** * The remainder periods (C7) *)

Lemma era_rest_lookup (pre post : list Z) n step r :
  0 ≤ n → r ≠ 0 →
  (pre ++ era n step r ++ post) !! (length pre + Z.to_nat n)%nat = Some r.
Proof.
  intros Hn Hr. unfold era.
  rewrite lookup_app_r by lia.
  replace (length pre + Z.to_nat n - length pre)%nat with (Z.to_nat n) by lia.
  rewrite <- app_assoc, lookup_app_r by (rewrite length_replicate; lia).
  rewrite length_replicate, Nat.sub_diag. by rewrite decide_False.
Qed.

Lemma warning_elem r text :
  r ≠ 0 → {| entry_level := WARNING; entry_text := text |} ∈ warning r text.
Proof. intros Hr. unfold warning. rewrite decide_False by done. set_solver. Qed.

Lemma extra_zero r : r = 0 → extra r = 0.
Proof. intros ->. done. Qed.

Lemma extra_one r : r ≠ 0 → extra r = 1.
Proof. intros Hr. unfold extra. by rewrite decide_False. Qed.

(** C7: on every valid configuration, with [left1], [left2], [left3] the
    remainders of the era spans by the era steps, [periodToTimeStep] is, era
    by era, the era's full steps followed by its remainder if that is not
    zero.  An era with remainder zero gets no extra period; an era with a
    remainder gets one, its entry is the remainder and sits right after the
    era's full steps, and the warning naming the era is logged: the text
    says "first", "Second" or "Third" time interval and names the era's
    time step, so the three warnings differ.  The log grows by exactly the
    warnings of the uneven eras, in era order. *)
Theorem C7_remainder_periods mt log :
  valid mt → clean_outside mt →
  ∃ mt' log',
    set mt log = Some (tt, mt', log')
    ∧ periodToTimeStep mt'
      = era (numberOfPeriods1 mt') (timeStep1 mt) (left1 mt)
        ++ era (numberOfPeriods2 mt') (timeStep2 mt) (left2 mt)
        ++ era (numberOfPeriods3 mt') (timeStep3 mt) (left3 mt)
    ∧ log' = log
             ++ warning (left1 mt) "first time interval not divisible timeStep1"
             ++ warning (left2 mt) "Second time interval not divisible timeStep2"
             ++ warning (left3 mt) "Third time interval not divisible timeStep3"
    ∧ (left1 mt = 0 → numberOfPeriods1a mt' = numberOfPeriods1 mt')
    ∧ (left2 mt = 0 → numberOfPeriods2a mt' = numberOfPeriods2 mt')
    ∧ (left3 mt = 0 → numberOfPeriods3a mt' = numberOfPeriods3 mt')
    ∧ (left1 mt ≠ 0 →
       numberOfPeriods1a mt' = numberOfPeriods1 mt' + 1
       ∧ vec_load (numberOfPeriods1 mt') (periodToTimeStep mt')
         = Some (left1 mt)
       ∧ {| entry_level := WARNING;
            entry_text := "first time interval not divisible timeStep1" |}
         ∈ log')
    ∧ (left2 mt ≠ 0 →
       numberOfPeriods2a mt' = numberOfPeriods2 mt' + 1
       ∧ vec_load (numberOfPeriods1a mt' + numberOfPeriods2 mt')
           (periodToTimeStep mt') = Some (left2 mt)
       ∧ {| entry_level := WARNING;
            entry_text := "Second time interval not divisible timeStep2" |}
         ∈ log')
    ∧ (left3 mt ≠ 0 →
       numberOfPeriods3a mt' = numberOfPeriods3 mt' + 1
       ∧ vec_load (numberOfPeriods1a mt' + numberOfPeriods2a mt'
                   + numberOfPeriods3 mt')
           (periodToTimeStep mt') = Some (left3 mt)
       ∧ {| entry_level := WARNING;
            entry_text := "Third time interval not divisible timeStep3" |}
         ∈ log')
    ∧ "first time interval not divisible timeStep1"
      ≠ "Second time interval not divisible timeStep2"
    ∧ "first time interval not divisible timeStep1"
      ≠ "Third time interval not divisible timeStep3"
    ∧ "Second time interval not divisible timeStep2"
      ≠ "Third time interval not divisible timeStep3".
Proof.
  change "first time interval not divisible timeStep1" with warn1.
  change "Second time interval not divisible timeStep2" with warn2.
  change "Third time interval not divisible timeStep3" with warn3.
  intros Hv Hc. destruct (set_spec mt log Hv Hc) as (mt' & E & P).
  exists mt', (log ++ warnings mt). split; [done |].
  destruct Hv as [He _]. destruct (whole_nonneg mt He) as (Hw1 & Hw2 & Hw3).
  rewrite (post_steps _ _ P), (post_n1 _ _ P), (post_n2 _ _ P),
    (post_n3 _ _ P), (post_n1a _ _ P), (post_n2a _ _ P), (post_n3a _ _ P).
  pose proof (length_era (whole1 mt + 1) (timeStep1 mt) (left1 mt)
                ltac:(lia)) as L1.
  pose proof (length_era (whole2 mt) (timeStep2 mt) (left2 mt) Hw2) as L2.
  pose proof (extra_bound (left1 mt)) as Hx1.
  pose proof (extra_bound (left2 mt)) as Hx2.
  split; [done |]. split; [done |].
  split; [intros H; rewrite (extra_zero _ H); lia |].
  split; [intros H; rewrite (extra_zero _ H); lia |].
  split; [intros H; rewrite (extra_zero _ H); lia |].
  split; [| split; [| split]].
  4: { by repeat split. }
  - intros H. split; [rewrite (extra_one _ H); lia |]. split.
    + apply vec_load_Some; [lia |].
      apply (era_rest_lookup [] _ (whole1 mt + 1)); [lia | done].
    + unfold warnings. rewrite !elem_of_app. right. left.
      by apply warning_elem.
  - intros H. split; [rewrite (extra_one _ H); lia |]. split.
    + apply vec_load_Some; [lia |]. unfold steps.
      replace (Z.to_nat (whole1 mt + 1 + extra (left1 mt) + whole2 mt))
        with (length (era (whole1 mt + 1) (timeStep1 mt) (left1 mt))
              + Z.to_nat (whole2 mt))%nat by lia.
      by apply era_rest_lookup.
    + unfold warnings. rewrite !elem_of_app. right. right. left.
      by apply warning_elem.
  - intros H. split; [rewrite (extra_one _ H); lia |]. split.
    + apply vec_load_Some; [lia |].
      replace (steps mt)
        with ((era (whole1 mt + 1) (timeStep1 mt) (left1 mt)
               ++ era (whole2 mt) (timeStep2 mt) (left2 mt))
              ++ era (whole3 mt) (timeStep3 mt) (left3 mt) ++ [])
        by (unfold steps; by rewrite app_nil_r, app_assoc).
      replace (Z.to_nat (whole1 mt + 1 + extra (left1 mt)
                         + (whole2 mt + extra (left2 mt)) + whole3 mt))
        with (length (era (whole1 mt + 1) (timeStep1 mt) (left1 mt)
                      ++ era (whole2 mt) (timeStep2 mt) (left2 mt))
              + Z.to_nat (whole3 mt))%nat by (rewrite length_app; lia).
      by apply era_rest_lookup.
    + unfold warnings. rewrite !elem_of_app. right. right. right.
      by apply warning_elem.
Qed.

Lemma C7_remainder_periods_witness :
  valid scenarioB ∧ clean_outside scenarioB
  ∧ ∃ mt' log',
      set scenarioB [] = Some (tt, mt', log')
      ∧ numberOfPeriods1a mt' = numberOfPeriods1 mt' + 1
      ∧ vec_load (numberOfPeriods1 mt') (periodToTimeStep mt') = Some 2
      ∧ log' = [ {| entry_level := WARNING;
                    entry_text :=
                      "first time interval not divisible timeStep1" |} ]
      ∧ numberOfPeriods2a mt' = numberOfPeriods2 mt'.
Proof.
  split; [apply scenarioB_valid |]. split; [apply parsed_clean |].
  destruct (C7_remainder_periods scenarioB [] scenarioB_valid
              (parsed_clean _ _ _ _ _ _ _ _ _))
    as (mt' & log' & E & _ & Hlog & _ & H2 & _ & H1 & _).
  exists mt', log'. split; [exact E |].
  destruct H1 as (Ha & Hl & _); [by vm_compute |].
  split; [exact Ha |]. split; [exact Hl |]. split; [exact Hlog |].
  apply H2. by vm_compute.
Defined.

(** * The data grid (C8) *)

(** C8, as stated with "exactly when", fails on scenario A with yearly data
    up to 1992: the three data offsets are [1 / 5 = 0] although
    [maxDataPeriod = 3] differs from [maxPeriod = 16]. *)
Lemma C8_counterexample :
  valid scenarioYearly ∧ clean_outside scenarioYearly
  ∧ ∃ mt' log',
      set scenarioYearly [] = Some (tt, mt', log')
      ∧ maxDataPeriod mt' = 3 ∧ maxPeriod mt' = 16
      ∧ dataOffset mt' = [0; 0; 0].
Proof.
  split; [apply scenarioYearly_valid |]. split; [apply parsed_clean |].
  eexists _, _. split; [vm_compute; reflexivity |]. by vm_compute.
Qed.

Lemma sum_Z_uniform t (l : list Z) :
  Forall (λ s, s = t) l → sum_Z l = Z.of_nat (length l) * t.
Proof.
  induction 1 as [|s l -> _ IH]; [done |]. cbn [sum_Z foldr length].
  fold (sum_Z l). rewrite IH. lia.
Qed.

Section uniform.
Variable mt : Modeltime.
Hypothesis Hvalid : valid_eras mt.
Hypothesis Huniform : Forall (λ s, s = dataTimeStep mt) (steps mt).

Lemma uniform_step : timeStep1 mt = dataTimeStep mt.
Proof.
  pose proof Huniform as H. rewrite (steps_head mt Hvalid) in H.
  by apply Forall_cons_1 in H as [-> _].
Qed.

Lemma uniform_year_at (j : nat) :
  Z.of_nat j < periods mt →
  year_at mt j = startYear mt + Z.of_nat j * dataTimeStep mt.
Proof.
  intros Hj. unfold year_at. f_equal.
  rewrite (sum_Z_uniform (dataTimeStep mt)).
  - rewrite length_take. pose proof (length_tail_steps mt Hvalid).
    f_equal. lia.
  - apply Forall_take. rewrite (steps_head mt Hvalid) in Huniform.
    by apply Forall_cons_1 in Huniform as [_ ?].
Qed.

Lemma uniform_span :
  endYear mt - startYear mt = (periods mt - 1) * dataTimeStep mt.
Proof.
  pose proof (periods_pos mt Hvalid).
  rewrite <- (year_at_last mt Hvalid), uniform_year_at by lia.
  rewrite Z2Nat.id by lia. lia.
Qed.

Lemma uniform_data_periods :
  dataEndYear mt = endYear mt → data_periods mt = periods mt.
Proof.
  intros Hend. unfold data_periods. rewrite Hend, uniform_span.
  rewrite Z.quot_mul; [lia |].
  destruct Hvalid as (_ & _ & _ & ? & _). rewrite <- uniform_step. lia.
Qed.
End uniform.

(** The year of every period is mapped back to the period. *)
Lemma post_year_period mt mt' (j : nat) :
  valid_eras mt → set_post mt mt' → Z.of_nat j < periods mt →
  yearToModelPeriod mt' !! year_at mt j = Some (Z.of_nat j).
Proof.
  intros He P Hj. destruct j as [|j].
  - rewrite year_at_0. apply (post_map_start _ _ P).
  - apply (post_map_block _ _ P); [lia | done |].
    replace (Datatypes.S j - 1)%nat with j by lia.
    pose proof (year_at_lt_S mt He j Hj). lia.
Qed.

(** C8, amended: on every valid configuration [dataOffset] and
    [dataPeriodToModelPeriod] have [maxDataPeriod] entries; with
    [m = dataPeriodToModelPeriod[i]], the period of the data year
    [startYear + i * dataTimeStep], the entry [dataOffset[i]] is 0 when
    [maxDataPeriod == maxPeriod] and [dataTimeStep / periodToTimeStep[m]]
    otherwise (a quotient that can be 0 as well).  When every entry of
    [periodToTimeStep] equals [dataTimeStep] and [dataEndYear == endYear],
    the two counts agree, [dataOffset[i] == 0] and
    [dataPeriodToModelPeriod[i] == i] for every [i] in
    [0, maxDataPeriod). *)
Theorem C8_data_alignment mt log :
  valid mt → clean_outside mt →
  ∃ mt' log',
    set mt log = Some (tt, mt', log')
    ∧ Z.of_nat (length (dataOffset mt')) = maxDataPeriod mt'
    ∧ Z.of_nat (length (dataPeriodToModelPeriod mt')) = maxDataPeriod mt'
    ∧ (∀ i, 0 ≤ i < maxDataPeriod mt' →
         ∃ m s,
           vec_load i (dataPeriodToModelPeriod mt') = Some m
           ∧ yearToModelPeriod mt' !! (startYear mt + i * dataTimeStep mt)
             = Some m
           ∧ vec_load m (periodToTimeStep mt') = Some s
           ∧ 1 ≤ s
           ∧ (maxDataPeriod mt' = maxPeriod mt' →
              vec_load i (dataOffset mt') = Some 0)
           ∧ (maxDataPeriod mt' ≠ maxPeriod mt' →
              vec_load i (dataOffset mt') = Some (dataTimeStep mt ÷ s)))
    ∧ (Forall (λ s, s = dataTimeStep mt) (periodToTimeStep mt') →
       dataEndYear mt = endYear mt →
       maxDataPeriod mt' = maxPeriod mt'
       ∧ ∀ i, 0 ≤ i < maxDataPeriod mt' →
           vec_load i (dataOffset mt') = Some 0
           ∧ vec_load i (dataPeriodToModelPeriod mt') = Some i).
Proof.
  intros Hv Hc. destruct (set_spec mt log Hv Hc) as (mt' & E & P).
  exists mt', (log ++ warnings mt). split; [done |].
  destruct Hv as [He _].
  rewrite (post_max _ _ P), (post_max_data _ _ P), (post_steps _ _ P).
  split; [apply (post_offset_length _ _ P) |].
  split; [apply (post_data_length _ _ P) |].
  split.
  - intros i Hi.
    destruct (post_data _ _ P (Z.to_nat i)) as (m & s & Hm & Hd & Hm0 & Hs & Ho);
      [lia |].
    rewrite Z2Nat.id in Hm by lia.
    exists m, s. split; [apply vec_load_Some; (lia || done) |].
    split; [done |]. split; [apply vec_load_Some; (lia || done) |].
    split; [by apply (Forall_lookup_1 _ _ _ _ (Forall_steps mt He) Hs) |].
    split; intros Hcase; apply vec_load_Some; try lia; rewrite Ho.
    + by rewrite decide_True.
    + by rewrite decide_False.
  - intros Hu Hend.
    pose proof (uniform_data_periods mt He Hu Hend) as Heq.
    split; [done |]. intros i Hi.
    destruct (post_data _ _ P (Z.to_nat i)) as (m & s & Hm & Hd & Hm0 & Hs & Ho);
      [lia |].
    rewrite <- (uniform_year_at mt He Hu) in Hm by lia.
    rewrite (post_year_period mt mt' _ He P) in Hm by lia.
    simplify_eq. rewrite decide_True in Ho by done.
    split; apply vec_load_Some; try lia; try done.
    by rewrite Z2Nat.id in Hd by lia.
Qed.

Lemma scenarioUniform_valid : valid scenarioUniform.
Proof. decide_valid. Qed.

Lemma C8_data_alignment_witness :
  valid scenarioUniform ∧ clean_outside scenarioUniform
  ∧ ∃ mt' log',
      set scenarioUniform [] = Some (tt, mt', log')
      ∧ maxDataPeriod mt' = maxPeriod mt'
      ∧ vec_load 7 (dataOffset mt') = Some 0
      ∧ vec_load 7 (dataPeriodToModelPeriod mt') = Some 7.
Proof.
  split; [apply scenarioUniform_valid |]. split; [apply parsed_clean |].
  destruct (C8_data_alignment scenarioUniform [] scenarioUniform_valid
              (parsed_clean _ _ _ _ _ _ _ _ _))
    as (mt' & log' & E & _ & _ & _ & H).
  exists mt', log'. split; [exact E |].
  assert (periodToTimeStep mt' = replicate 22 5 ∧ maxDataPeriod mt' = 22)
    as [Hp Hn].
  { vm_compute in E. injection E as <- _. by vm_compute. }
  destruct H as [Heq Hall].
  { rewrite Hp. by apply Forall_replicate. }
  { by vm_compute. }
  split; [exact Heq |]. apply Hall. rewrite Hn. lia.
Defined.

(** * Running [set] again (C9) *)

Lemma Modeltime_eq a b :
  same_config a b →
  maxPeriod a = maxPeriod b → maxDataPeriod a = maxDataPeriod b →
  numberOfPeriods1 a = numberOfPeriods1 b →
  numberOfPeriods1a a = numberOfPeriods1a b →
  numberOfPeriods2 a = numberOfPeriods2 b →
  numberOfPeriods2a a = numberOfPeriods2a b →
  numberOfPeriods3 a = numberOfPeriods3 b →
  numberOfPeriods3a a = numberOfPeriods3a b →
  periodToTimeStep a = periodToTimeStep b →
  dataOffset a = dataOffset b →
  modelPeriodToYear a = modelPeriodToYear b →
  dataPeriodToModelPeriod a = dataPeriodToModelPeriod b →
  yearToModelPeriod a = yearToModelPeriod b →
  a = b.
Proof.
  destruct a, b. unfold same_config. cbn.
  intros (? & ? & ? & ? & ? & ? & ? & ? & ?). intros. by simplify_eq.
Qed.

(** After [set] the year map is clean outside the span again. *)
Lemma post_clean mt mt' : set_post mt mt' → clean_outside mt'.
Proof.
  intros P y v Hy Hout.
  destruct (post_config _ _ P) as (Hs & _ & _ & He & _).
  rewrite <- Hs, <- He in Hout.
  destruct (post_map_outside _ _ P y Hout) as [[Hz _] | [Hn _]]; congruence.
Qed.

(** Two lists with the same length and the same entries below it. *)
Lemma list_eq_upto (n : Z) (l k : list Z) (f : nat → option Z) :
  Z.of_nat (length l) = n → Z.of_nat (length k) = n →
  (∀ i : nat, Z.of_nat i < n → l !! i = f i ∧ k !! i = f i) →
  l = k.
Proof.
  intros Hl Hk H. apply list_eq. intros i.
  destruct (decide (Z.of_nat i < n)) as [Hi | Hi].
  - destruct (H i Hi) as [-> ->]. done.
  - rewrite !lookup_ge_None_2 by lia. done.
Qed.

(** [set] on the object that [set] left behind changes nothing. *)
Lemma set_post_fixed mt mt1 mt2 :
  valid_eras mt → set_post mt mt1 → set_post mt1 mt2 → mt1 = mt2.
Proof.
  intros He P1 P2.
  destruct (same_config_closed mt mt1 (post_config _ _ P1))
    as (_ & Hsteps & Hper & Hdp & Hyear & Hgrid & _
        & Hw1 & Hw2 & Hw3 & Hl1 & Hl2 & Hl3).
  pose proof (post_config _ _ P1) as (Hsy & _ & _ & Hey & _ & _ & _ & _ & Hdts).
  assert (Hmap : yearToModelPeriod mt1 = yearToModelPeriod mt2).
  { apply map_eq. intros y.
    destruct (decide (y < startYear mt ∨ endYear mt < y)) as [Hout | Hin].
    - assert (Hout1 : y < startYear mt1 ∨ endYear mt1 < y) by lia.
      destruct (post_map_outside _ _ P2 y Hout1)
        as [[Hz [Hold | [Hold Hg]]] | (Hn & Hold & _)]; try congruence.
      apply Hgrid in Hg.
      destruct (post_map_outside _ _ P1 y Hout)
        as [[Hz1 _] | (_ & _ & Hng)]; [congruence | done].
    - destruct (decide (y = startYear mt)) as [-> | Hne].
      + rewrite (post_map_start _ _ P1).
        rewrite Hsy, (post_map_start _ _ P2). done.
      + pose proof (periods_pos mt He) as Hpos.
        destruct (year_block mt (Z.to_nat (periods mt - 1)) y)
          as (j & Hj & Hjy); [lia | rewrite (year_at_last mt He); lia |].
        rewrite (post_map_block _ _ P1 j y) by (lia || done).
        rewrite (post_map_block _ _ P2 j y); [done | lia | lia |].
        by rewrite !Hyear. }
  apply Modeltime_eq; try apply (post_config _ _ P2).
  - rewrite (post_max _ _ P1), (post_max _ _ P2). lia.
  - rewrite (post_max_data _ _ P1), (post_max_data _ _ P2). lia.
  - rewrite (post_n1 _ _ P1), (post_n1 _ _ P2). lia.
  - rewrite (post_n1a _ _ P1), (post_n1a _ _ P2), Hw1, Hl1. lia.
  - rewrite (post_n2 _ _ P1), (post_n2 _ _ P2). lia.
  - rewrite (post_n2a _ _ P1), (post_n2a _ _ P2), Hw2, Hl2. lia.
  - rewrite (post_n3 _ _ P1), (post_n3 _ _ P2). lia.
  - rewrite (post_n3a _ _ P1), (post_n3a _ _ P2), Hw3, Hl3. lia.
  - rewrite (post_steps _ _ P1), (post_steps _ _ P2). done.
  - apply (list_eq_upto (data_periods mt) _ _ (λ i, dataOffset mt1 !! i)).
    + apply (post_offset_length _ _ P1).
    + rewrite <- Hdp. apply (post_offset_length _ _ P2).
    + intros i Hi. split; [done |].
      destruct (post_data _ _ P1 i Hi) as (p1 & s1 & Hp1 & _ & _ & Hs1 & ->).
      destruct (post_data _ _ P2 i) as (p2 & s2 & Hp2 & _ & _ & Hs2 & ->);
        [lia |].
      rewrite <- Hmap, <- Hsy, <- Hdts, Hp1 in Hp2.
      rewrite Hsteps in Hs2. simplify_eq.
      by rewrite Hdp, Hper, <- Hdts.
  - apply (list_eq_upto (periods mt) _ _ (λ i, Some (year_at mt i))).
    + apply (post_years_length _ _ P1).
    + rewrite <- Hper. apply (post_years_length _ _ P2).
    + intros i Hi. split; [by apply (post_years _ _ P1) |].
      rewrite <- Hyear. apply (post_years _ _ P2). lia.
  - apply (list_eq_upto (data_periods mt) _ _
             (λ i, dataPeriodToModelPeriod mt1 !! i)).
    + apply (post_data_length _ _ P1).
    + rewrite <- Hdp. apply (post_data_length _ _ P2).
    + intros i Hi. split; [done |].
      destruct (post_data _ _ P1 i Hi) as (p1 & s1 & Hp1 & -> & _).
      destruct (post_data _ _ P2 i) as (p2 & s2 & Hp2 & -> & _); [lia |].
      rewrite <- Hmap, <- Hsy, <- Hdts, Hp1 in Hp2. done.
  - done.
Qed.

(** C9: on every valid configuration, a second [set] on the object the
    first one left behind returns that same object: the counts,
    [maxPeriod], [maxDataPeriod], the four vectors and the year map are
    what they were.  (The warnings are logged a second time.) *)
Theorem C9_set_idempotent mt log :
  valid mt → clean_outside mt →
  ∃ mt1 log1,
    set mt log = Some (tt, mt1, log1)
    ∧ same_config mt mt1
    ∧ ∃ log2, set mt1 log1 = Some (tt, mt1, log2).
Proof.
  intros Hv Hc. destruct (set_spec mt log Hv Hc) as (mt1 & E1 & P1).
  exists mt1, (log ++ warnings mt). split; [done |].
  split; [apply (post_config _ _ P1) |].
  destruct (same_config_closed mt mt1 (post_config _ _ P1)) as (Hv1 & _).
  destruct (set_spec mt1 (log ++ warnings mt) (Hv1 Hv) (post_clean _ _ P1))
    as (mt2 & E2 & P2).
  destruct Hv as [He _].
  rewrite <- (set_post_fixed mt mt1 mt2 He P1 P2) in E2. eauto.
Qed.

Lemma C9_set_idempotent_witness :
  valid scenarioB ∧ clean_outside scenarioB
  ∧ ∃ mt1 log1,
      set scenarioB [] = Some (tt, mt1, log1)
      ∧ ∃ log2, set mt1 log1 = Some (tt, mt1, log2).
Proof.
  split; [apply scenarioB_valid |]. split; [apply parsed_clean |].
  destruct (C9_set_idempotent scenarioB [] scenarioB_valid
              (parsed_clean _ _ _ _ _ _ _ _ _))
    as (mt1 & log1 & E1 & _ & H2).
  exists mt1, log1. split; [exact E1 | exact H2].
Defined.

(** * Data years outside the model span (C10) *)



(** * Parsing and writing the configuration *)

Lemma XMLParse_child_log c mt log :
  (XMLParse_child c (mt, log)).2 = log ++ parse_warnings [c].
Proof.
  unfold parse_warnings. rewrite filter_cons, filter_nil.
  unfold XMLParse_child, recognized, config_member, log_line.
  destruct c as [name v]. cbn [nodeName nodeValue].
  repeat case_decide; simplify_eq; try done.
  all: cbn; try (by rewrite app_nil_r).
  all: try (exfalso; match goal with H : ¬ (_ ∨ _) |- _ => apply H end;
            by eauto).
  match goal with H : _ ∨ _ |- _ => destruct H as [? | [? ?]]; done end.
Qed.

Lemma XMLParse_child_derived c mt log :
  same_derived mt (XMLParse_child c (mt, log)).1.
Proof.
  unfold XMLParse_child. repeat case_decide; by repeat split.
Qed.

(** A child assigns the member of its own name and no other. *)
Lemma XMLParse_child_member c mt log name get :
  config_member name = Some get →
  get (XMLParse_child c (mt, log)).1
  = if decide (nodeName c = name) then nodeValue c else get mt.
Proof.
  unfold config_member, XMLParse_child. destruct c as [n v].
  cbn [nodeName nodeValue]. intros Hget.
  repeat case_decide; simplify_eq; done.
Qed.

Lemma same_derived_trans a b c :
  same_derived a b → same_derived b c → same_derived a c.
Proof.
  unfold same_derived. intros Hab Hbc. destruct_and!.
  repeat split; congruence.
Qed.

Lemma XMLParse_fold children : ∀ mt log,
  ∃ mt', foldl (λ st curr, XMLParse_child curr st) (mt, log) children
         = (mt', log ++ parse_warnings children)
         ∧ same_derived mt mt'.
Proof.
  induction children as [|c l IH]; intros mt log.
  - exists mt. split; [by rewrite app_nil_r | by repeat split].
  - cbn [foldl].
    destruct (XMLParse_child c (mt, log)) as [mt1 log1] eqn:E.
    pose proof (XMLParse_child_log c mt log) as Hlog.
    pose proof (XMLParse_child_derived c mt log) as Hder.
    rewrite E in Hlog, Hder. cbn [fst snd] in Hlog, Hder. subst log1.
    destruct (IH mt1 (log ++ parse_warnings [c])) as (mt' & -> & Hd).
    exists mt'. split; [| by eapply same_derived_trans].
    f_equal. rewrite <- app_assoc. f_equal.
    unfold parse_warnings. by rewrite <- fmap_app, <- filter_app.
Qed.

Lemma XMLParse_fold_member name get children : ∀ mt log,
  config_member name = Some get →
  Forall (λ c, nodeName c ≠ name) children →
  get (foldl (λ st curr, XMLParse_child curr st) (mt, log) children).1
  = get mt.
Proof.
  induction children as [|c l IH]; intros mt log Hget Hall; [done |].
  apply Forall_cons_1 in Hall as [Hc Hl]. cbn [foldl].
  destruct (XMLParse_child c (mt, log)) as [mt1 log1] eqn:E.
  rewrite IH by done.
  pose proof (XMLParse_child_member c mt log name get Hget) as Hm.
  rewrite E in Hm. cbn [fst] in Hm. by rewrite decide_False in Hm.
Qed.

Lemma parse_warnings_recognized children :
  Forall (λ c, recognized (nodeName c)) children →
  parse_warnings children = [].
Proof.
  unfold parse_warnings. induction 1 as [|c l Hc _ IH]; [done |].
  rewrite filter_cons, decide_False by tauto. done.
Qed.

(** X1: [XMLParse] always returns; it passes over "#text" children and the
    nine configuration elements in silence and appends, in document order,
    one WARNING naming the node for each other child. *)
Theorem XMLParse_warnings children mt log :
  ∃ mt', XMLParse children mt log
         = Some (tt, mt', log ++ parse_warnings children)
         ∧ length (parse_warnings children)
           = length (filter (λ c, ¬ recognized (nodeName c)) children)
         ∧ (Forall (λ c, recognized (nodeName c)) children →
            XMLParse children mt log = Some (tt, mt', log)).
Proof.
  destruct (XMLParse_fold children mt log) as (mt' & E & _).
  exists mt'. unfold XMLParse. rewrite E.
  split; [done |]. split; [unfold parse_warnings; by rewrite length_fmap |].
  intros Hall. by rewrite parse_warnings_recognized, app_nil_r.
Qed.

Lemma XMLParse_warnings_witness :
  (∃ mt', XMLParse [ {| nodeName := "#text"; nodeValue := 0 |};
                     {| nodeName := "startyear"; nodeValue := 1990 |} ]
            Modeltime_ctor [] = Some (tt, mt', []))
  ∧ ∃ mt', XMLParse [ {| nodeName := "startYear"; nodeValue := 1990 |} ]
             Modeltime_ctor []
           = Some (tt, mt',
                   [ {| entry_level := WARNING;
                        entry_text :=
                          "Unrecognized text string: startYear found while parsing modeltime." |} ]).
Proof.
  split.
  - destruct (XMLParse_warnings
                [ {| nodeName := "#text"; nodeValue := 0 |};
                  {| nodeName := "startyear"; nodeValue := 1990 |} ]
                Modeltime_ctor []) as (mt' & _ & _ & H).
    exists mt'. apply H.
    apply Forall_cons. split; [by left |].
    apply Forall_cons. split; [right; vm_compute; by eexists | constructor].
  - destruct (XMLParse_warnings
                [ {| nodeName := "startYear"; nodeValue := 1990 |} ]
                Modeltime_ctor []) as (mt' & E & _).
    exists mt'. rewrite E. by vm_compute.
Defined.

(** X2: [XMLParse] never touches the derived members: the period counts,
    [maxPeriod], [maxDataPeriod], the four vectors and the year map are
    what they were, whatever the children. *)
Theorem XMLParse_keeps_derived children mt log :
  ∃ mt' log', XMLParse children mt log = Some (tt, mt', log')
              ∧ same_derived mt mt'.
Proof.
  destruct (XMLParse_fold children mt log) as (mt' & E & Hd).
  exists mt', (log ++ parse_warnings children).
  unfold XMLParse. by rewrite E.
Qed.

(** X3: for each of the nine configuration members, the last child that
    carries the member's element name decides its value, and a document
    without such a child leaves the member as it was. *)
Theorem XMLParse_last_wins children mt log name get :
  config_member name = Some get →
  ∃ mt' log',
    XMLParse children mt log = Some (tt, mt', log')
    ∧ (Forall (λ c, nodeName c ≠ name) children → get mt' = get mt)
    ∧ (∀ pre c post, children = pre ++ c :: post → nodeName c = name →
         Forall (λ d, nodeName d ≠ name) post → get mt' = nodeValue c).
Proof.
  intros Hget.
  destruct (XMLParse_fold children mt log) as (mt' & E & _).
  exists mt', (log ++ parse_warnings children).
  unfold XMLParse. rewrite E. split; [done |].
  replace mt' with
    (foldl (λ st curr, XMLParse_child curr st) (mt, log) children).1
    by (by rewrite E).
  split.
  - by apply XMLParse_fold_member.
  - intros pre c post -> Hc Hpost. rewrite foldl_app. cbn [foldl].
    destruct (foldl (λ st curr, XMLParse_child curr st) (mt, log) pre)
      as [mt1 log1].
    destruct (XMLParse_child c (mt1, log1)) as [mt2 log2] eqn:E2.
    rewrite (XMLParse_fold_member name get) by done.
    pose proof (XMLParse_child_member c mt1 log1 name get Hget) as Hm.
    rewrite E2 in Hm. cbn [fst] in Hm. by rewrite decide_True in Hm.
Qed.

Lemma XMLParse_last_wins_witness :
  ∃ mt' log',
    XMLParse [ {| nodeName := "endyear"; nodeValue := 2050 |};
               {| nodeName := "#text"; nodeValue := 0 |};
               {| nodeName := "endyear"; nodeValue := 2095 |};
               {| nodeName := "startyear"; nodeValue := 1990 |} ]
      Modeltime_ctor [] = Some (tt, mt', log')
    ∧ endYear mt' = 2095.
Proof.
  destruct (XMLParse_last_wins
              [ {| nodeName := "endyear"; nodeValue := 2050 |};
                {| nodeName := "#text"; nodeValue := 0 |};
                {| nodeName := "endyear"; nodeValue := 2095 |};
                {| nodeName := "startyear"; nodeValue := 1990 |} ]
              Modeltime_ctor [] "endyear" endYear ltac:(by vm_compute))
    as (mt' & log' & E & _ & H).
  exists mt', log'. split; [exact E |].
  apply (H [ {| nodeName := "endyear"; nodeValue := 2050 |};
             {| nodeName := "#text"; nodeValue := 0 |} ]
           {| nodeName := "endyear"; nodeValue := 2095 |}
           [ {| nodeName := "startyear"; nodeValue := 1990 |} ]);
    [reflexivity | reflexivity |].
  repeat constructor. by vm_compute.
Defined.

(** X4: the nine elements [toInputXML] writes are the elements [XMLParse]
    reads: parsing them into any object gives that object the writer's
    configuration, keeps its derived members and logs nothing; parsed into
    a newly constructed object they give the object the claims start from,
    and parsed into the writer itself they change nothing. *)
Theorem toInputXML_XMLParse mt mt0 log :
  ∃ mt1,
    XMLParse (written_children (toInputXML mt [])) mt0 log
      = Some (tt, mt1, log)
    ∧ same_config mt mt1 ∧ same_derived mt0 mt1
    ∧ (mt0 = Modeltime_ctor →
       mt1 = parsed (startYear mt) (interYear1 mt) (interYear2 mt)
               (endYear mt) (timeStep1 mt) (timeStep2 mt) (timeStep3 mt)
               (dataEndYear mt) (dataTimeStep mt))
    ∧ (mt0 = mt → mt1 = mt).
Proof.
  eexists. split; [vm_compute; reflexivity |].
  split; [by repeat split |]. split; [by repeat split |].
  split; intros ->; [reflexivity | by destruct mt].
Qed.

Lemma toInputXML_XMLParse_witness :
  XMLParse (written_children (toInputXML scenarioA [])) Modeltime_ctor []
  = Some (tt, scenarioA, []).
Proof.
  destruct (toInputXML_XMLParse scenarioA Modeltime_ctor [])
    as (mt1 & E & _ & _ & H & _).
  rewrite E. rewrite (H eq_refl). reflexivity.
Defined.

(** * Years and periods after [set] *)

Lemma empty_clean mt : yearToModelPeriod mt = ∅ → clean_outside mt.
Proof. intros H y v Hy. by rewrite H, lookup_empty in Hy. Qed.

(** After [set], a year of the span is mapped to the first period whose
    year is not before it. *)
Lemma post_lookup_in_span mt mt' y :
  valid_eras mt → set_post mt mt' →
  startYear mt ≤ y ≤ endYear mt →
  ∃ j : nat,
    Z.of_nat j < periods mt
    ∧ yearToModelPeriod mt' !! y = Some (Z.of_nat j)
    ∧ y ≤ year_at mt j
    ∧ ∀ i : nat, (i < j)%nat → year_at mt i < y.
Proof.
  intros He P Hy. pose proof (periods_pos mt He) as Hpos.
  destruct (decide (y = startYear mt)) as [-> | Hne].
  - exists 0%nat. split; [lia |]. split; [apply (post_map_start _ _ P) |].
    split; [rewrite year_at_0; lia | lia].
  - destruct (year_block mt (Z.to_nat (periods mt - 1)) y)
      as (j & Hj & Hjy); [lia | rewrite (year_at_last mt He); lia |].
    exists j. split; [lia |].
    split; [apply (post_map_block _ _ P); (lia || done) |].
    split; [lia |]. intros i Hi.
    destruct (decide (i = (j - 1)%nat)) as [-> | Hne']; [lia |].
    pose proof (year_at_mono mt He i (j - 1) ltac:(lia) ltac:(lia)). lia.
Qed.

Lemma post_lookup_mono mt mt' y1 y2 p1 p2 :
  valid_eras mt → set_post mt mt' →
  startYear mt ≤ y1 → y1 ≤ y2 → y2 ≤ endYear mt →
  yearToModelPeriod mt' !! y1 = Some p1 →
  yearToModelPeriod mt' !! y2 = Some p2 → p1 ≤ p2.
Proof.
  intros He P H1 H12 H2 E1 E2.
  destruct (post_lookup_in_span mt mt' y1 He P) as (j1 & _ & F1 & _ & Hb1);
    [lia |].
  destruct (post_lookup_in_span mt mt' y2 He P) as (j2 & _ & F2 & Ha2 & _);
    [lia |].
  simplify_eq. destruct (decide (j2 < j1)%nat) as [Hlt | ?]; [| lia].
  specialize (Hb1 j2 Hlt). lia.
Qed.

(** A call that logged nothing found its year in the map. *)
Lemma getyr_to_per_silent y p mt log :
  getyr_to_per y mt log = Some (p, mt, log) →
  yearToModelPeriod mt !! y = Some p.
Proof.
  unfold getyr_to_per, log_line. destruct (yearToModelPeriod mt !! y); intros H.
  - congruence.
  - exfalso. injection H as _ H. apply (f_equal length) in H.
    rewrite length_app in H. cbn in H. lia.
Qed.

(** X5: after [set] on a valid configuration [toDebugXML] is defined exactly
    for the periods below both [maxPeriod] and [maxDataPeriod]: it reads
    [dataOffset], a vector of [maxDataPeriod] entries, at the model
    period. *)
Theorem toDebugXML_defined mt log :
  valid mt → clean_outside mt →
  ∃ mt' log',
    set mt log = Some (tt, mt', log')
    ∧ ∀ period out,
        is_Some (toDebugXML period mt' out)
        ↔ 0 ≤ period ∧ period < maxPeriod mt' ∧ period < maxDataPeriod mt'.
Proof.
  intros Hv Hc. destruct (set_spec mt log Hv Hc) as (mt' & E & P).
  exists mt', (log ++ warnings mt). split; [done |].
  destruct Hv as [He _]. intros period out.
  rewrite (post_max _ _ P), (post_max_data _ _ P).
  pose proof (length_steps mt He) as Ls.
  pose proof (post_years_length _ _ P) as Ly.
  pose proof (post_offset_length _ _ P) as Lo.
  unfold toDebugXML, vec_load. rewrite (post_steps _ _ P).
  destruct (decide (0 ≤ period)) as [H0 | H0].
  2: { split; [intros [? ?]; done | lia]. }
  split.
  - intros [r Hr].
    destruct (steps mt !! Z.to_nat period) eqn:E1; [| done].
    destruct (dataOffset mt' !! Z.to_nat period) eqn:E2; [| done].
    apply lookup_lt_Some in E1, E2. lia.
  - intros (_ & H1 & H2).
    destruct (lookup_lt_is_Some_2 (steps mt) (Z.to_nat period)) as [s ->];
      [lia |].
    destruct (lookup_lt_is_Some_2 (dataOffset mt') (Z.to_nat period))
      as [o ->]; [lia |].
    destruct (lookup_lt_is_Some_2 (modelPeriodToYear mt') (Z.to_nat period))
      as [y ->]; [lia |].
    cbn. eauto.
Qed.

(** Scenario A has 16 periods and 4 data periods: period 3 can be written,
    period 4 cannot. *)
Lemma toDebugXML_defined_witness :
  valid scenarioA ∧ clean_outside scenarioA
  ∧ ∃ mt' log',
      set scenarioA [] = Some (tt, mt', log')
      ∧ is_Some (toDebugXML 3 mt' [])
      ∧ ¬ is_Some (toDebugXML 4 mt' []).
Proof.
  split; [apply scenarioA_valid |]. split; [apply scenarioA_clean |].
  destruct (toDebugXML_defined scenarioA [] scenarioA_valid scenarioA_clean)
    as (mt' & log' & E & H).
  exists mt', log'. split; [exact E |].
  assert (maxPeriod mt' = 16 ∧ maxDataPeriod mt' = 4) as [Hp Hd].
  { vm_compute in E. injection E as <- _. by vm_compute. }
  split.
  - apply H. lia.
  - intros Hs. apply H in Hs. lia.
Defined.

(** X6: after [set] on a valid configuration [getBasePeriod] returns 0 and
    logs nothing; on an object whose year map is still empty it returns 0 as
    well, after logging the ERROR for the start year. *)
Theorem getBasePeriod_zero mt log :
  (valid mt → clean_outside mt →
   ∃ mt' log',
     set mt log = Some (tt, mt', log')
     ∧ getBasePeriod mt' log' = Some (0, mt', log'))
  ∧ (yearToModelPeriod mt = ∅ →
     getBasePeriod mt log
     = Some (0, mt, log ++ [ {| entry_level := ERROR;
                                entry_text := invalid_year (startYear mt) |} ])).
Proof.
  split.
  - intros Hv Hc. destruct (set_spec mt log Hv Hc) as (mt' & E & P).
    exists mt', (log ++ warnings mt). split; [done |].
    unfold getBasePeriod. apply getyr_to_per_hit.
    destruct (post_config _ _ P) as (<- & _). apply (post_map_start _ _ P).
  - intros Hm. unfold getBasePeriod, getyr_to_per, log_line.
    by rewrite Hm, lookup_empty.
Qed.

Lemma getBasePeriod_zero_witness :
  (∃ mt' log',
     set scenarioB [] = Some (tt, mt', log')
     ∧ getBasePeriod mt' log' = Some (0, mt', log'))
  ∧ getBasePeriod scenarioB []
    = Some (0, scenarioB,
            [ {| entry_level := ERROR;
                 entry_text :=
                   "Invalid year: 2000 passed to Modeltime::getyr_to_per. " |} ]).
Proof.
  destruct (getBasePeriod_zero scenarioB []) as [H1 H2]. split.
  - apply H1; [apply scenarioB_valid | apply parsed_clean].
  - rewrite H2 by reflexivity. by vm_compute.
Defined.

(** X7: after [set] on a valid configuration the end year is mapped to the
    last period: [getyr_to_per( getEndYear() )] is [maxPeriod - 1]. *)
Theorem getyr_to_per_end_year mt log :
  valid mt → clean_outside mt →
  ∃ mt' log',
    set mt log = Some (tt, mt', log')
    ∧ getEndYear mt' = endYear mt
    ∧ getyr_to_per (getEndYear mt') mt' log'
      = Some (maxPeriod mt' - 1, mt', log').
Proof.
  intros Hv Hc. destruct (set_spec mt log Hv Hc) as (mt' & E & P).
  exists mt', (log ++ warnings mt). split; [done |].
  destruct Hv as [He _]. pose proof (periods_pos mt He) as Hpos.
  destruct (post_config _ _ P) as (_ & _ & _ & Hend & _).
  unfold getEndYear. rewrite <- Hend. split; [done |].
  apply getyr_to_per_hit. rewrite (post_max _ _ P).
  rewrite <- (year_at_last mt He).
  rewrite (post_year_period mt mt' _ He P) by lia. f_equal. lia.
Qed.

Lemma getyr_to_per_end_year_witness :
  valid scenarioA ∧ clean_outside scenarioA
  ∧ ∃ mt' log',
      set scenarioA [] = Some (tt, mt', log')
      ∧ getyr_to_per 2095 mt' log' = Some (15, mt', log').
Proof.
  split; [apply scenarioA_valid |]. split; [apply scenarioA_clean |].
  destruct (getyr_to_per_end_year scenarioA [] scenarioA_valid scenarioA_clean)
    as (mt' & log' & E & He & H).
  exists mt', log'. split; [exact E |].
  rewrite He in H.
  replace (maxPeriod mt') with 16 in H; [exact H |].
  vm_compute in E. injection E as <- _. by vm_compute.
Defined.

(** X8: after [set] on a valid configuration every year of
    [startYear .. endYear] is a key of the year map; [getyr_to_per] answers
    for it, without logging, with a period in [0, maxPeriod): the first
    period whose year is not before the given year. *)
Theorem getyr_to_per_in_span mt log :
  valid mt → clean_outside mt →
  ∃ mt' log',
    set mt log = Some (tt, mt', log')
    ∧ ∀ y, startYear mt ≤ y ≤ endYear mt →
        ∃ p yp,
          getyr_to_per y mt' log' = Some (p, mt', log')
          ∧ 0 ≤ p < maxPeriod mt'
          ∧ vec_load p (modelPeriodToYear mt') = Some yp
          ∧ y ≤ yp
          ∧ ∀ q yq, 0 ≤ q < p →
              vec_load q (modelPeriodToYear mt') = Some yq → yq < y.
Proof.
  intros Hv Hc. destruct (set_spec mt log Hv Hc) as (mt' & E & P).
  exists mt', (log ++ warnings mt). split; [done |].
  destruct Hv as [He _]. rewrite (post_max _ _ P). intros y Hy.
  destruct (post_lookup_in_span mt mt' y He P Hy) as (j & Hj & Hm & Ha & Hb).
  exists (Z.of_nat j), (year_at mt j).
  split; [by apply getyr_to_per_hit |]. split; [lia |].
  split.
  { apply vec_load_Some; [lia |]. rewrite Nat2Z.id. by apply (post_years _ _ P). }
  split; [done |].
  intros q yq Hq Eq. unfold vec_load in Eq.
  rewrite decide_True in Eq by lia.
  rewrite (post_years _ _ P) in Eq by lia. simplify_eq.
  apply Hb. lia.
Qed.

Lemma getyr_to_per_in_span_witness :
  valid scenarioB ∧ clean_outside scenarioB
  ∧ ∃ mt' log',
      set scenarioB [] = Some (tt, mt', log')
      ∧ ∃ p yp, getyr_to_per 2006 mt' log' = Some (p, mt', log')
                ∧ vec_load p (modelPeriodToYear mt') = Some yp
                ∧ 2006 ≤ yp.
Proof.
  split; [apply scenarioB_valid |]. split; [apply parsed_clean |].
  destruct (getyr_to_per_in_span scenarioB [] scenarioB_valid
              (parsed_clean _ _ _ _ _ _ _ _ _)) as (mt' & log' & E & H).
  exists mt', log'. split; [exact E |].
  destruct (H 2006) as (p & yp & Hg & _ & Hl & Hy & _); [by vm_compute |].
  exists p, yp. split; [exact Hg |]. split; [exact Hl | exact Hy].
Defined.

(** X9: after [set] on a valid configuration the year map is monotone on
    the span: a later year never gets an earlier period. *)
Theorem getyr_to_per_monotone mt log :
  valid mt → clean_outside mt →
  ∃ mt' log',
    set mt log = Some (tt, mt', log')
    ∧ ∀ y1 y2 p1 p2,
        startYear mt ≤ y1 → y1 ≤ y2 → y2 ≤ endYear mt →
        getyr_to_per y1 mt' log' = Some (p1, mt', log') →
        getyr_to_per y2 mt' log' = Some (p2, mt', log') →
        p1 ≤ p2.
Proof.
  intros Hv Hc. destruct (set_spec mt log Hv Hc) as (mt' & E & P).
  exists mt', (log ++ warnings mt). split; [done |].
  destruct Hv as [He _]. intros y1 y2 p1 p2 H1 H12 H2 E1 E2.
  apply getyr_to_per_silent in E1, E2.
  by eapply (post_lookup_mono mt mt' y1 y2).
Qed.

Lemma getyr_to_per_monotone_witness :
  valid scenarioB ∧ clean_outside scenarioB
  ∧ ∃ mt' log',
      set scenarioB [] = Some (tt, mt', log')
      ∧ getyr_to_per 2006 mt' log' = Some (2, mt', log')
      ∧ getyr_to_per 2008 mt' log' = Some (3, mt', log')
      ∧ 2 ≤ 3.
Proof.
  split; [apply scenarioB_valid |]. split; [apply parsed_clean |].
  destruct (getyr_to_per_monotone scenarioB [] scenarioB_valid
              (parsed_clean _ _ _ _ _ _ _ _ _)) as (mt' & log' & E & H).
  exists mt', log'. split; [exact E |].
  assert (getyr_to_per 2006 mt' log' = Some (2, mt', log')
          ∧ getyr_to_per 2008 mt' log' = Some (3, mt', log')) as [G1 G2].
  { vm_compute in E. injection E as <- <-. by vm_compute. }
  split; [exact G1 |]. split; [exact G2 |].
  apply (H 2006 2008 2 3); [by vm_compute | lia | by vm_compute | exact G1 | exact G2].
Defined.

(** X10: after [set] on a valid configuration whose year map was empty, the
    keys of the year map are exactly the years [startYear .. endYear] and
    the years of the data grid; for every other year [getyr_to_per] logs
    the ERROR and returns 0. *)
Theorem year_map_keys mt log :
  valid mt → yearToModelPeriod mt = ∅ →
  ∃ mt' log',
    set mt log = Some (tt, mt', log')
    ∧ ∀ y,
        (is_Some (yearToModelPeriod mt' !! y)
         ↔ startYear mt ≤ y ≤ endYear mt
           ∨ ∃ i, 0 ≤ i < maxDataPeriod mt'
                  ∧ y = startYear mt + i * dataTimeStep mt)
        ∧ (¬ is_Some (yearToModelPeriod mt' !! y) →
           getyr_to_per y mt' log'
           = Some (0, mt', log' ++ [ {| entry_level := ERROR;
                                        entry_text := invalid_year y |} ])).
Proof.
  intros Hv Hm. pose proof (empty_clean mt Hm) as Hc.
  destruct (set_spec mt log Hv Hc) as (mt' & E & P).
  exists mt', (log ++ warnings mt). split; [done |].
  destruct Hv as [He _]. rewrite (post_max_data _ _ P). intros y. split.
  - destruct (decide (startYear mt ≤ y ≤ endYear mt)) as [Hin | Hout].
    + destruct (post_lookup_in_span mt mt' y He P Hin) as (j & _ & -> & _).
      split; [by left | eauto].
    + destruct (post_map_outside _ _ P y ltac:(lia))
        as [[Hz [Hold | [_ Hg]]] | (Hn & _ & Hng)].
      * by rewrite Hm, lookup_empty in Hold.
      * rewrite Hz. split; [by right | eauto].
      * rewrite Hn. split; [by intros [? ?] |].
        intros [? | Hg]; [lia | done].
  - intros Hn. unfold getyr_to_per, log_line.
    destruct (yearToModelPeriod mt' !! y); [destruct Hn; eauto | done].
Qed.

Lemma year_map_keys_witness :
  valid scenarioA
  ∧ ∃ mt' log',
      set scenarioA [] = Some (tt, mt', log')
      ∧ ¬ is_Some (yearToModelPeriod mt' !! 2100)
      ∧ is_Some (yearToModelPeriod mt' !! 2001).
Proof.
  split; [apply scenarioA_valid |].
  destruct (year_map_keys scenarioA [] scenarioA_valid eq_refl)
    as (mt' & log' & E & H).
  exists mt', log'. split; [exact E |].
  assert (maxDataPeriod mt' = 4) as Hd.
  { vm_compute in E. injection E as <- _. by vm_compute. }
  split.
  - intros Hs. apply (H 2100) in Hs. rewrite Hd in Hs.
    destruct Hs as [Hs | (i & Hi & Hs)].
    + vm_compute in Hs. destruct Hs as [_ Hs]. by apply Hs.
    + change (startYear scenarioA) with 1990 in Hs.
      change (dataTimeStep scenarioA) with 5 in Hs. lia.
  - apply (H 2001). left. by vm_compute.
Defined.

(** * More of the period grid *)

Lemma Forall_era_bound n step rest :
  1 ≤ step → 0 ≤ rest < step →
  Forall (λ s, 1 ≤ s ≤ step) (era n step rest).
Proof.
  intros Hs Hr. unfold era. apply Forall_app. split.
  - apply Forall_replicate. lia.
  - case_decide; [constructor |]. repeat constructor; lia.
Qed.

(** X11: after [set] on a valid configuration [periodToTimeStep] is three
    runs, one per era, of [numberOfPeriods1a], [numberOfPeriods2a] and
    [numberOfPeriods3a] entries, and every entry of a run is at least 1 and
    at most the nominal step of its era. *)
Theorem periodToTimeStep_bounds mt log :
  valid mt → clean_outside mt →
  ∃ mt' log',
    set mt log = Some (tt, mt', log')
    ∧ ∃ e1 e2 e3,
        periodToTimeStep mt' = e1 ++ e2 ++ e3
        ∧ Z.of_nat (length e1) = numberOfPeriods1a mt'
        ∧ Z.of_nat (length e2) = numberOfPeriods2a mt'
        ∧ Z.of_nat (length e3) = numberOfPeriods3a mt'
        ∧ Forall (λ s, 1 ≤ s ≤ timeStep1 mt) e1
        ∧ Forall (λ s, 1 ≤ s ≤ timeStep2 mt) e2
        ∧ Forall (λ s, 1 ≤ s ≤ timeStep3 mt) e3.
Proof.
  intros Hv Hc. destruct (set_spec mt log Hv Hc) as (mt' & E & P).
  exists mt', (log ++ warnings mt). split; [done |].
  destruct Hv as [He _]. destruct (whole_nonneg mt He) as (Hw1 & Hw2 & Hw3).
  destruct (left_bound mt He) as (Hl1 & Hl2 & Hl3).
  destruct He as (_ & _ & _ & Ht1 & Ht2 & Ht3).
  exists (era (whole1 mt + 1) (timeStep1 mt) (left1 mt)),
         (era (whole2 mt) (timeStep2 mt) (left2 mt)),
         (era (whole3 mt) (timeStep3 mt) (left3 mt)).
  rewrite (post_steps _ _ P), (post_n1a _ _ P), (post_n2a _ _ P),
    (post_n3a _ _ P), !length_era by lia.
  repeat split; try done; apply Forall_era_bound; lia.
Qed.

Lemma periodToTimeStep_bounds_witness :
  valid scenarioB ∧ clean_outside scenarioB
  ∧ ∃ mt' log',
      set scenarioB [] = Some (tt, mt', log')
      ∧ ∃ e1 e2 e3,
          periodToTimeStep mt' = e1 ++ e2 ++ e3
          ∧ Z.of_nat (length e1) = 3
          ∧ Forall (λ s, 1 ≤ s ≤ 5) e1.
Proof.
  split; [apply scenarioB_valid |]. split; [apply parsed_clean |].
  destruct (periodToTimeStep_bounds scenarioB [] scenarioB_valid
              (parsed_clean _ _ _ _ _ _ _ _ _))
    as (mt' & log' & E & e1 & e2 & e3 & Hp & L1 & _ & _ & F1 & _).
  exists mt', log'. split; [exact E |].
  exists e1, e2, e3. split; [exact Hp |]. split; [| exact F1].
  rewrite L1. vm_compute in E. injection E as <- _. by vm_compute.
Defined.

Lemma tail_steps mt :
  valid_eras mt →
  tail (steps mt)
  = (era (whole1 mt) (timeStep1 mt) (left1 mt)
     ++ era (whole2 mt) (timeStep2 mt) (left2 mt))
    ++ era (whole3 mt) (timeStep3 mt) (left3 mt).
Proof.
  intros He. destruct (whole_nonneg mt He) as (Hw1 & _).
  unfold steps, era at 1.
  replace (Z.to_nat (whole1 mt + 1)) with (Datatypes.S (Z.to_nat (whole1 mt)))
    by lia.
  cbn [replicate app tail]. unfold era. by rewrite <- !app_assoc.
Qed.

Lemma year_at_inter1 mt :
  valid_eras mt →
  year_at mt (Z.to_nat (whole1 mt + extra (left1 mt))) = interYear1 mt.
Proof.
  intros He. destruct (whole_nonneg mt He) as (Hw1 & _).
  destruct (era_spans mt He) as (Hs1 & _).
  unfold year_at. rewrite (tail_steps mt He), <- app_assoc.
  rewrite take_app_length'.
  - rewrite sum_Z_era by done. lia.
  - pose proof (length_era (whole1 mt) (timeStep1 mt) (left1 mt) Hw1). lia.
Qed.

Lemma year_at_inter2 mt :
  valid_eras mt →
  year_at mt (Z.to_nat (whole1 mt + extra (left1 mt)
                        + whole2 mt + extra (left2 mt)))
  = interYear2 mt.
Proof.
  intros He. destruct (whole_nonneg mt He) as (Hw1 & Hw2 & _).
  destruct (era_spans mt He) as (Hs1 & Hs2 & _).
  unfold year_at. rewrite (tail_steps mt He).
  rewrite take_app_length'.
  - rewrite sum_Z_app, !sum_Z_era by done. lia.
  - pose proof (length_era (whole1 mt) (timeStep1 mt) (left1 mt) Hw1).
    pose proof (length_era (whole2 mt) (timeStep2 mt) (left2 mt) Hw2).
    rewrite length_app. lia.
Qed.

(** X12: after [set] on a valid configuration the two intermediate years
    are period years, whatever the remainders: the last period of era 1 is
    at [interYear1], the last period of era 2 at [interYear2], and
    [getyr_to_per] maps the two years to those periods. *)
Theorem era_boundaries mt log :
  valid mt → clean_outside mt →
  ∃ mt' log',
    set mt log = Some (tt, mt', log')
    ∧ vec_load (numberOfPeriods1a mt' - 1) (modelPeriodToYear mt')
      = Some (interYear1 mt)
    ∧ vec_load (numberOfPeriods1a mt' + numberOfPeriods2a mt' - 1)
        (modelPeriodToYear mt') = Some (interYear2 mt)
    ∧ getyr_to_per (interYear1 mt) mt' log'
      = Some (numberOfPeriods1a mt' - 1, mt', log')
    ∧ getyr_to_per (interYear2 mt) mt' log'
      = Some (numberOfPeriods1a mt' + numberOfPeriods2a mt' - 1, mt', log').
Proof.
  intros Hv Hc. destruct (set_spec mt log Hv Hc) as (mt' & E & P).
  exists mt', (log ++ warnings mt). split; [done |].
  destruct Hv as [He _]. destruct (whole_nonneg mt He) as (Hw1 & Hw2 & Hw3).
  pose proof (extra_bound (left1 mt)) as Hx1.
  pose proof (extra_bound (left2 mt)) as Hx2.
  pose proof (extra_bound (left3 mt)) as Hx3.
  assert (Hq3 : 1 ≤ whole3 mt + extra (left3 mt)).
  { destruct (era_spans mt He) as (_ & _ & Hs3).
    destruct He as (_ & _ & Hy3 & _). unfold extra. case_decide; [| lia].
    destruct (decide (whole3 mt = 0)) as [Hz | ?]; [rewrite Hz in Hs3 |]; lia. }
  assert (Hper : periods mt = whole1 mt + 1 + extra (left1 mt)
                   + (whole2 mt + extra (left2 mt))
                   + (whole3 mt + extra (left3 mt))) by done.
  rewrite (post_n1a _ _ P), (post_n2a _ _ P).
  replace (whole1 mt + 1 + extra (left1 mt) - 1)
    with (whole1 mt + extra (left1 mt)) by lia.
  replace (whole1 mt + 1 + extra (left1 mt) + (whole2 mt + extra (left2 mt)) - 1)
    with (whole1 mt + extra (left1 mt) + whole2 mt + extra (left2 mt)) by lia.
  pose proof (year_at_inter1 mt He) as H1.
  pose proof (year_at_inter2 mt He) as H2.
  split; [apply vec_load_Some; [lia |]; rewrite <- H1;
          apply (post_years _ _ P); lia |].
  split; [apply vec_load_Some; [lia |]; rewrite <- H2;
          apply (post_years _ _ P); lia |].
  split; apply getyr_to_per_hit.
  - rewrite <- H1 at 1.
    rewrite (post_year_period mt mt' _ He P) by lia. f_equal. lia.
  - rewrite <- H2 at 1.
    rewrite (post_year_period mt mt' _ He P) by lia. f_equal. lia.
Qed.

Lemma era_boundaries_witness :
  valid scenarioB ∧ clean_outside scenarioB
  ∧ ∃ mt' log',
      set scenarioB [] = Some (tt, mt', log')
      ∧ getyr_to_per 2007 mt' log' = Some (2, mt', log')
      ∧ getyr_to_per 2037 mt' log' = Some (8, mt', log').
Proof.
  split; [apply scenarioB_valid |]. split; [apply parsed_clean |].
  destruct (era_boundaries scenarioB [] scenarioB_valid
              (parsed_clean _ _ _ _ _ _ _ _ _))
    as (mt' & log' & E & _ & _ & H1 & H2).
  exists mt', log'. split; [exact E |].
  assert (numberOfPeriods1a mt' = 3 ∧ numberOfPeriods2a mt' = 6) as [Ha Hb].
  { vm_compute in E. injection E as <- _. by vm_compute. }
  rewrite Ha, Hb in *. split; [exact H1 | exact H2].
Defined.

(** * More of the data grid *)

(** X13: after [set] on a valid configuration every entry of
    [dataPeriodToModelPeriod] is a period in [0, maxPeriod), the entry read
    from the year map for the data year, and entry 0, the one of the start
    year, is period 0. *)
Theorem dataPeriodToModelPeriod_range mt log :
  valid mt → clean_outside mt →
  ∃ mt' log',
    set mt log = Some (tt, mt', log')
    ∧ (∀ i, 0 ≤ i < maxDataPeriod mt' →
         ∃ m, vec_load i (dataPeriodToModelPeriod mt') = Some m
              ∧ 0 ≤ m < maxPeriod mt'
              ∧ getyr_to_per (startYear mt + i * dataTimeStep mt) mt' log'
                = Some (m, mt', log'))
    ∧ (0 < maxDataPeriod mt' →
       vec_load 0 (dataPeriodToModelPeriod mt') = Some 0).
Proof.
  intros Hv Hc. destruct (set_spec mt log Hv Hc) as (mt' & E & P).
  exists mt', (log ++ warnings mt). split; [done |].
  destruct Hv as [He _]. rewrite (post_max _ _ P), (post_max_data _ _ P).
  pose proof (length_steps mt He) as Ls.
  split.
  - intros i Hi.
    destruct (post_data _ _ P (Z.to_nat i)) as (m & s & Hm & Hd & Hm0 & Hs & _);
      [lia |].
    rewrite Z2Nat.id in Hm by lia. apply lookup_lt_Some in Hs.
    exists m. split; [apply vec_load_Some; (lia || done) |].
    split; [lia | by apply getyr_to_per_hit].
  - intros Hpos.
    destruct (post_data _ _ P 0%nat) as (m & s & Hm & Hd & _); [lia |].
    replace (startYear mt + Z.of_nat 0 * dataTimeStep mt)
      with (startYear mt) in Hm by lia.
    rewrite (post_map_start _ _ P) in Hm. simplify_eq.
    by apply vec_load_Some.
Qed.

Lemma dataPeriodToModelPeriod_range_witness :
  valid scenarioOver ∧ clean_outside scenarioOver
  ∧ ∃ mt' log',
      set scenarioOver [] = Some (tt, mt', log')
      ∧ vec_load 0 (dataPeriodToModelPeriod mt') = Some 0
      ∧ ∃ m, vec_load 22 (dataPeriodToModelPeriod mt') = Some m
             ∧ 0 ≤ m < maxPeriod mt'.
Proof.
  split; [apply scenarioOver_valid |]. split; [apply parsed_clean |].
  destruct (dataPeriodToModelPeriod_range scenarioOver [] scenarioOver_valid
              (parsed_clean _ _ _ _ _ _ _ _ _))
    as (mt' & log' & E & Hall & H0).
  exists mt', log'. split; [exact E |].
  assert (maxDataPeriod mt' = 23) as Hd.
  { vm_compute in E. injection E as <- _. by vm_compute. }
  split; [apply H0; lia |].
  destruct (Hall 22) as (m & Hm & Hr & _); [lia |].
  exists m. split; [exact Hm | exact Hr].
Defined.

(** X14: on a valid configuration with a positive data step and a data end
    year not after the end year, every data year lies in
    [startYear .. endYear] and [dataPeriodToModelPeriod] is
    non-decreasing. *)
Theorem dataPeriodToModelPeriod_nondecreasing mt log :
  valid mt → clean_outside mt →
  0 < dataTimeStep mt → dataEndYear mt ≤ endYear mt →
  ∃ mt' log',
    set mt log = Some (tt, mt', log')
    ∧ (∀ i, 0 ≤ i < maxDataPeriod mt' →
         startYear mt ≤ startYear mt + i * dataTimeStep mt ≤ endYear mt)
    ∧ nondecreasing (dataPeriodToModelPeriod mt').
Proof.
  intros Hv Hc Hdts Hend. destruct (set_spec mt log Hv Hc) as (mt' & E & P).
  exists mt', (log ++ warnings mt). split; [done |].
  destruct Hv as [He [_ Hdp]]. rewrite (post_max_data _ _ P).
  assert (Hspan : ∀ i, 0 ≤ i < data_periods mt →
            startYear mt ≤ startYear mt + i * dataTimeStep mt ≤ endYear mt).
  { intros i Hi. unfold data_periods in Hi, Hdp.
    destruct He as (? & ? & ? & _).
    destruct (decide (0 ≤ dataEndYear mt - startYear mt)) as [Hpos | Hneg].
    - pose proof (Z.quot_rem' (dataEndYear mt - startYear mt) (dataTimeStep mt)).
      pose proof (Z.rem_bound_pos (dataEndYear mt - startYear mt)
                    (dataTimeStep mt) Hpos Hdts).
      nia.
    - pose proof (Z.quot_opp_l (dataEndYear mt - startYear mt)
                    (dataTimeStep mt) ltac:(lia)) as Ho.
      pose proof (Z.quot_pos (- (dataEndYear mt - startYear mt))
                    (dataTimeStep mt) ltac:(lia) Hdts).
      assert (i = 0) as -> by lia. lia. }
  split; [done |].
  intros a b x y Hab Ea Eb.
  pose proof (post_data_length _ _ P) as Ld.
  apply lookup_lt_Some in Ea as La. apply lookup_lt_Some in Eb as Lb.
  destruct (post_data _ _ P a) as (pa & sa & Ma & Da & _); [lia |].
  destruct (post_data _ _ P b) as (pb & sb & Mb & Db & _); [lia |].
  simplify_eq.
  eapply (post_lookup_mono mt mt' _ _ x y He P); [| | | exact Ma | exact Mb].
  - apply (Hspan (Z.of_nat a)). lia.
  - nia.
  - apply (Hspan (Z.of_nat b)). lia.
Qed.

Lemma dataPeriodToModelPeriod_nondecreasing_witness :
  valid scenarioYearly ∧ clean_outside scenarioYearly
  ∧ ∃ mt' log',
      set scenarioYearly [] = Some (tt, mt', log')
      ∧ dataPeriodToModelPeriod mt' = [0; 1; 1]
      ∧ nondecreasing (dataPeriodToModelPeriod mt').
Proof.
  split; [apply scenarioYearly_valid |]. split; [apply parsed_clean |].
  destruct (dataPeriodToModelPeriod_nondecreasing scenarioYearly []
              scenarioYearly_valid (parsed_clean _ _ _ _ _ _ _ _ _))
    as (mt' & log' & E & _ & H); [by vm_compute | by vm_compute |].
  exists mt', log'. split; [exact E |]. split; [| exact H].
  vm_compute in E. injection E as <- _. by vm_compute.
Defined.

Lemma length_le_sum_Z (l : list Z) :
  Forall (λ s, 1 ≤ s) l → Z.of_nat (length l) ≤ sum_Z l.
Proof.
  induction 1 as [|s l Hs _ IH]; [done |].
  cbn [length sum_Z foldr]. fold (sum_Z l). lia.
Qed.

Lemma era_count_pos a b step q r :
  a < b → 0 < step → 0 ≤ q → b - a = q * step + r → 1 ≤ q + extra r.
Proof.
  intros Hab Hs Hq Hspan. unfold extra. case_decide; [| lia].
  destruct (decide (q = 0)) as [-> | ?]; lia.
Qed.

(** X19: on a valid configuration [set] makes at least four periods (the
    start year and at least one period in each era) and at most one period
    for every year from [startYear] to [endYear]. *)
Theorem maxPeriod_bounds mt log :
  valid mt → clean_outside mt →
  ∃ mt' log',
    set mt log = Some (tt, mt', log')
    ∧ 4 ≤ maxPeriod mt' ≤ endYear mt - startYear mt + 1
    ∧ 2 ≤ numberOfPeriods1a mt'
    ∧ 1 ≤ numberOfPeriods2a mt'
    ∧ 1 ≤ numberOfPeriods3a mt'.
Proof.
  intros Hv Hc. destruct (set_spec mt log Hv Hc) as (mt' & E & P).
  exists mt', (log ++ warnings mt). split; [done |].
  destruct Hv as [He _]. destruct (whole_nonneg mt He) as (Hw1 & Hw2 & Hw3).
  destruct (era_spans mt He) as (Hs1 & Hs2 & Hs3).
  pose proof He as (Hy1 & Hy2 & Hy3 & Ht1 & Ht2 & Ht3).
  pose proof (era_count_pos _ _ _ _ _ Hy1 Ht1 Hw1 Hs1) as H1.
  pose proof (era_count_pos _ _ _ _ _ Hy2 Ht2 Hw2 Hs2) as H2.
  pose proof (era_count_pos _ _ _ _ _ Hy3 Ht3 Hw3 Hs3) as H3.
  rewrite (post_max _ _ P), (post_n1a _ _ P), (post_n2a _ _ P),
    (post_n3a _ _ P).
  assert (Hper : periods mt = whole1 mt + 1 + extra (left1 mt)
                   + (whole2 mt + extra (left2 mt))
                   + (whole3 mt + extra (left3 mt))) by done.
  split; [| lia]. split; [lia |].
  pose proof (length_tail_steps mt He) as Ll.
  pose proof (sum_Z_tail_steps mt He) as Hsum.
  pose proof (Forall_steps mt He) as Hall.
  rewrite (steps_head mt He) in Hall. apply Forall_cons_1 in Hall as [_ Hall].
  pose proof (length_le_sum_Z _ Hall). lia.
Qed.

Lemma maxPeriod_bounds_witness :
  valid scenarioA ∧ clean_outside scenarioA
  ∧ ∃ mt' log',
      set scenarioA [] = Some (tt, mt', log')
      ∧ 4 ≤ maxPeriod mt' ≤ 106.
Proof.
  split; [apply scenarioA_valid |]. split; [apply scenarioA_clean |].
  destruct (maxPeriod_bounds scenarioA [] scenarioA_valid scenarioA_clean)
    as (mt' & log' & E & H & _).
  exists mt', log'. split; [exact E | exact H].
Defined.

(** X20: after [set] on a valid configuration the year of every period
    after the first is the year of the period before plus the period's own
    entry of [periodToTimeStep]; entry 0 of [periodToTimeStep] plays no
    part in the years. *)
Theorem modelPeriodToYear_step mt log :
  valid mt → clean_outside mt →
  ∃ mt' log',
    set mt log = Some (tt, mt', log')
    ∧ ∀ i, 1 ≤ i < maxPeriod mt' →
        ∃ a s, vec_load (i - 1) (modelPeriodToYear mt') = Some a
               ∧ vec_load i (periodToTimeStep mt') = Some s
               ∧ 1 ≤ s
               ∧ vec_load i (modelPeriodToYear mt') = Some (a + s).
Proof.
  intros Hv Hc. destruct (set_spec mt log Hv Hc) as (mt' & E & P).
  exists mt', (log ++ warnings mt). split; [done |].
  destruct Hv as [He _]. rewrite (post_max _ _ P), (post_steps _ _ P).
  intros i Hi.
  destruct (steps_lookup mt He (Z.to_nat i)) as (s & Hs & H1); [lia |].
  exists (year_at mt (Z.to_nat (i - 1))), s.
  split; [apply vec_load_Some; [lia |]; apply (post_years _ _ P); lia |].
  split; [apply vec_load_Some; (lia || done) |]. split; [done |].
  apply vec_load_Some; [lia |].
  rewrite (post_years _ _ P) by lia. f_equal.
  replace (Z.to_nat i) with (Datatypes.S (Z.to_nat (i - 1))) in * by lia.
  by apply year_at_S.
Qed.

Lemma modelPeriodToYear_step_witness :
  valid scenarioB ∧ clean_outside scenarioB
  ∧ ∃ mt' log',
      set scenarioB [] = Some (tt, mt', log')
      ∧ ∃ a s, vec_load 1 (modelPeriodToYear mt') = Some a
               ∧ vec_load 2 (periodToTimeStep mt') = Some s
               ∧ vec_load 2 (modelPeriodToYear mt') = Some (a + s).
Proof.
  split; [apply scenarioB_valid |]. split; [apply parsed_clean |].
  destruct (modelPeriodToYear_step scenarioB [] scenarioB_valid
              (parsed_clean _ _ _ _ _ _ _ _ _)) as (mt' & log' & E & H).
  exists mt', log'. split; [exact E |].
  destruct (H 2) as (a & s & Ha & Hs & _ & Hy).
  { split; [lia |]. vm_compute in E. injection E as <- _. by vm_compute. }
  exists a, s. split; [exact Ha |]. split; [exact Hs | exact Hy].
Defined.

(** * When [set] is defined *)

Lemma int_div_inv a b v : int_div a b = Some v → b ≠ 0 ∧ v = a ÷ b.
Proof. unfold int_div. case_decide; [done |]. by intros [= <-]. Qed.

Lemma int_mod_inv a b v : int_mod a b = Some v → b ≠ 0 ∧ v = Z.rem a b.
Proof. unfold int_mod. case_decide; [done |]. by intros [= <-]. Qed.

Lemma vec_resize_inv n (v r : list Z) :
  vec_resize n v = Some r → 0 ≤ n ∧ Z.of_nat (length r) = n.
Proof.
  unfold vec_resize. case_decide; [| done]. intros [= <-].
  rewrite length_resize. lia.
Qed.

(** What every defined run of [set] needed and did, valid configuration or
    not. *)
Lemma set_inv mt log mt' log' :
  set mt log = Some (tt, mt', log') →
  (timeStep1 mt ≠ 0 ∧ timeStep2 mt ≠ 0 ∧ timeStep3 mt ≠ 0
   ∧ dataTimeStep mt ≠ 0 ∧ 1 ≤ periods mt ∧ 0 ≤ data_periods mt)
  ∧ same_config mt mt'
  ∧ log' = log ++ warnings mt
  ∧ (numberOfPeriods1 mt' = whole1 mt + 1
     ∧ numberOfPeriods2 mt' = whole2 mt
     ∧ numberOfPeriods3 mt' = whole3 mt
     ∧ numberOfPeriods1a mt' = whole1 mt + 1 + extra (left1 mt)
     ∧ numberOfPeriods2a mt' = whole2 mt + extra (left2 mt)
     ∧ numberOfPeriods3a mt' = whole3 mt + extra (left3 mt)
     ∧ maxPeriod mt' = periods mt
     ∧ maxDataPeriod mt' = data_periods mt).
Proof.
  unfold set. intros H.
  bind_inv H q1 E1. apply int_div_inv in E1 as [T1 ->].
  bind_inv H q2 E2. apply int_div_inv in E2 as [T2 ->].
  bind_inv H q3 E3. apply int_div_inv in E3 as [T3 ->].
  bind_inv H r1 R1. apply int_mod_inv in R1 as [_ ->].
  bind_inv H r2 R2. apply int_mod_inv in R2 as [_ ->].
  bind_inv H r3 R3. apply int_mod_inv in R3 as [_ ->].
  fold (whole1 mt) (whole2 mt) (whole3 mt) (left1 mt) (left2 mt) (left3 mt)
    in H.
  rewrite !count_extra in H. fold (periods mt) in H.
  bind_inv H dq D. apply int_div_inv in D as [TD ->].
  fold (data_periods mt) in H.
  bind_inv H v0 V0. clear V0.
  bind_inv H v1 V1. bind_inv H v2 V2. bind_inv H v3 V3.
  bind_inv H v4 V4. bind_inv H v5 V5. bind_inv H v6 V6.
  bind_inv H p0 P0. apply vec_resize_inv in P0 as [_ LP].
  bind_inv H p1 P1.
  assert (HP : 1 ≤ periods mt).
  { unfold vec_store in P1. case_decide; [lia | done]. }
  bind_inv H w W. destruct w as [[b y2p] p2y].
  bind_inv H o0 O0. apply vec_resize_inv in O0 as [HD _].
  bind_inv H d0 D0. bind_inv H a A. destruct a as [[y2p' doff] d2m].
  injection H as <- <-.
  split; [done |]. split; [by repeat split |].
  split; [unfold warnings; by rewrite <- !app_assoc |].
  by repeat split.
Qed.

(** X15: [set] has no defined result when one of the three time steps or
    the data time step is zero (a division by zero), when the number of
    periods it computes is not positive (the first year is stored at index
    0), or when the number of data periods it computes is negative (the
    size of two vectors). *)
Theorem set_undefined mt log :
  timeStep1 mt = 0 ∨ timeStep2 mt = 0 ∨ timeStep3 mt = 0
  ∨ dataTimeStep mt = 0
  ∨ periods mt ≤ 0
  ∨ (dataEndYear mt - startYear mt) ÷ dataTimeStep mt + 1 < 0 →
  set mt log = None.
Proof.
  intros Hbad. destruct (set mt log) as [[[[] mt'] log']|] eqn:E; [| done].
  apply set_inv in E as ((T1 & T2 & T3 & TD & HP & HD) & _).
  unfold data_periods in HD. exfalso. lia.
Qed.

Lemma set_undefined_witness :
  set (parsed 1990 2005 2035 2095 5 0 10 2005 5) [] = None
  ∧ set (parsed 1990 2005 2035 2095 5 5 10 1970 5) [] = None
  ∧ set (parsed 1990 1970 1971 1972 5 5 10 2005 5) [] = None.
Proof.
  split; [| split]; apply set_undefined.
  - right. left. reflexivity.
  - do 5 right. by vm_compute.
  - do 4 right. left. by vm_compute.
Defined.

(** X16: every defined run of [set], on a valid configuration or not,
    leaves the nine configuration members as they were, appends to the log
    exactly the warnings of the eras with a non-zero remainder, and sets
    [maxPeriod] to the sum of the three a-counts and [maxDataPeriod] to
    [(dataEndYear - startYear) / dataTimeStep + 1]. *)
Theorem set_frame mt log mt' log' :
  set mt log = Some (tt, mt', log') →
  same_config mt mt'
  ∧ log' = log ++ warnings mt
  ∧ Forall (λ e, entry_level e = WARNING) (warnings mt)
  ∧ maxPeriod mt'
    = numberOfPeriods1a mt' + numberOfPeriods2a mt' + numberOfPeriods3a mt'
  ∧ maxDataPeriod mt'
    = (dataEndYear mt - startYear mt) ÷ dataTimeStep mt + 1.
Proof.
  intros E. apply set_inv in E
    as (_ & Hc & Hl & (_ & _ & _ & -> & -> & -> & -> & ->)).
  split; [done |]. split; [done |]. split; [| done].
  unfold warnings, warning. rewrite !Forall_app.
  repeat split; case_decide; by repeat constructor.
Qed.

Lemma set_frame_witness :
  ∃ mt' log',
    set scenarioB [] = Some (tt, mt', log')
    ∧ same_config scenarioB mt'
    ∧ log' = [] ++ warnings scenarioB.
Proof.
  assert (∃ mt' log', set scenarioB [] = Some (tt, mt', log'))
    as (mt' & log' & E).
  { eexists _, _. vm_compute. reflexivity. }
  exists mt', log'. split; [exact E |].
  destruct (set_frame scenarioB [] mt' log' E) as (Hc & Hl & _).
  split; [exact Hc | exact Hl].
Defined.

(** * [EnergyInput::hasTypeFlag] *)

Lemma hasTypeFlag_iff_bits ENERGY aTypeFlag :
  hasTypeFlag ENERGY aTypeFlag = true
  ↔ ∀ n, 0 ≤ n →
      Z.testbit aTypeFlag n = true → Z.testbit ENERGY n = true.
Proof.
  unfold hasTypeFlag. rewrite Z.eqb_eq. split.
  - intros H n Hn Hf. apply (f_equal (λ z, Z.testbit z n)) in H.
    rewrite Z.land_spec, Z.lnot_spec, Z.bits_0, Hf in H by done.
    by destruct (Z.testbit ENERGY n).
  - intros H. apply Z.bits_inj'. intros n Hn.
    rewrite Z.land_spec, Z.lnot_spec, Z.bits_0 by done.
    destruct (Z.testbit aTypeFlag n) eqn:Ef; [| done].
    by rewrite (H n Hn Ef).
Qed.

(** X17: [hasTypeFlag] answers yes exactly for the flag words all of whose
    bits are bits of [IInput::ENERGY]; a word with one bit outside it is
    refused. *)
Theorem hasTypeFlag_bits ENERGY aTypeFlag :
  (hasTypeFlag ENERGY aTypeFlag = true
   ↔ ∀ n, 0 ≤ n →
       Z.testbit aTypeFlag n = true → Z.testbit ENERGY n = true)
  ∧ (∀ n, 0 ≤ n → Z.testbit aTypeFlag n = true →
          Z.testbit ENERGY n = false →
          hasTypeFlag ENERGY aTypeFlag = false).
Proof.
  split; [apply hasTypeFlag_iff_bits |].
  intros n Hn Hf He.
  destruct (hasTypeFlag ENERGY aTypeFlag) eqn:E; [| done].
  rewrite hasTypeFlag_iff_bits in E. rewrite (E n Hn Hf) in He. done.
Qed.

Lemma hasTypeFlag_bits_witness : hasTypeFlag 4 6 = false.
Proof.
  destruct (hasTypeFlag_bits 4 6) as [_ H].
  apply (H 1); [lia | reflexivity | reflexivity].
Defined.

(** X18: the empty flag word and [IInput::ENERGY] itself pass, passing
    words are closed under [|], and when [IInput::ENERGY] is a single bit
    the words that pass are exactly 0 and [IInput::ENERGY]. *)
Theorem hasTypeFlag_flags ENERGY :
  hasTypeFlag ENERGY 0 = true
  ∧ hasTypeFlag ENERGY ENERGY = true
  ∧ (∀ f g, hasTypeFlag ENERGY f = true → hasTypeFlag ENERGY g = true →
            hasTypeFlag ENERGY (Z.lor f g) = true)
  ∧ (∀ k f, 0 ≤ k → ENERGY = 2 ^ k →
            (hasTypeFlag ENERGY f = true ↔ f = 0 ∨ f = ENERGY)).
Proof.
  split; [| split; [| split]].
  - apply hasTypeFlag_iff_bits. intros n Hn. by rewrite Z.bits_0.
  - by apply hasTypeFlag_iff_bits.
  - intros f g Hf Hg. rewrite hasTypeFlag_iff_bits in *. intros n Hn.
    rewrite Z.lor_spec, orb_true_iff. intros [H | H]; eauto.
  - intros k f Hk ->. rewrite hasTypeFlag_iff_bits. split.
    + intros H. destruct (Z.testbit f k) eqn:Ek; [right | left].
      * apply Z.bits_inj'. intros n Hn. rewrite Z.pow2_bits_eqb by done.
        destruct (Z.eqb_spec k n) as [<- | Hne]; [done |].
        destruct (Z.testbit f n) eqn:En; [| done].
        specialize (H n Hn En). rewrite Z.pow2_bits_eqb in H by done.
        apply Z.eqb_eq in H. lia.
      * apply Z.bits_inj'. intros n Hn. rewrite Z.bits_0.
        destruct (Z.testbit f n) eqn:En; [| done].
        specialize (H n Hn En). rewrite Z.pow2_bits_eqb in H by done.
        apply Z.eqb_eq in H. congruence.
    + intros [-> | ->] n Hn; [by rewrite Z.bits_0 | done].
Qed.

Lemma hasTypeFlag_flags_witness :
  hasTypeFlag 4 6 = true ↔ 6 = 0 ∨ 6 = 4.
Proof.
  destruct (hasTypeFlag_flags 4) as (_ & _ & _ & H).
  apply (H 2 6); [lia | reflexivity].
Defined.
